(** * Crossword CSP solver ([generate.py]): shallow embedding and properties

    The development follows [CrosswordCreator] method by method.  The grid
    model ([crossword.py]) is an external collaborator of the solver: its
    slots, vocabulary, overlap table and neighbour query are the fields of
    the record [Crossword] and are never inspected beyond what the solver
    reads.

    Conventions.
    - A Python [dict] keyed by slots is a [gmap Var.t _].
    - A Python [set] of words or of slots is the duplicate-free list of its
      elements in iteration order.  Python leaves that order unspecified;
      every statement below that is universally quantified holds for every
      order, and every concrete evaluation names the order it uses.
    - A call that may raise returns an [outcome]; the two loops that have no
      structural bound ([ac3]'s work list, [backtrack]'s recursion) take a
      fuel argument and answer [OutOfFuel] when it is used up. *)

From stdpp Require Import gmap strings list fin_maps.
From Stdlib Require Import Ascii ZArith Lia Sorted.

Open Scope string_scope.

(** ** Slots *)

Inductive Direction := ACROSS | DOWN.

Module Var.
Record t := mk { i : nat; j : nat; direction : Direction; length : nat }.
End Var.

#[global] Instance Direction_eq_dec : EqDecision Direction.
Proof. solve_decision. Defined.

#[global] Instance Var_eq_dec : EqDecision Var.t.
Proof. solve_decision. Defined.

Definition Var_to_tuple (v : Var.t) : nat * nat * bool * nat :=
  (Var.i v, Var.j v,
   match Var.direction v with ACROSS => true | DOWN => false end,
   Var.length v).

Definition Var_of_tuple (p : nat * nat * bool * nat) : Var.t :=
  let '(a, b, c, n) := p in
  Var.mk a b (if c then ACROSS else DOWN) n.

#[global] Instance Var_countable : Countable Var.t.
Proof.
  refine (inj_countable' Var_to_tuple Var_of_tuple _).
  intros [a b [] n]; reflexivity.
Defined.

(** ** The grid model, as the solver sees it *)

(** [overlaps] and [neighbors] are total here.  In [crossword.py] the
    overlap table has an entry for each ordered pair of distinct slots of
    the crossword and [neighbors] reads that table, so both raise [KeyError]
    on a slot that is not one of [variables], and the table has no entry for
    a slot with itself.  Statements that promise a result therefore name the
    slots they speak of as distinct slots of the crossword. *)

Record Crossword := {
  variables : list Var.t;
  words : list string;
  overlaps : Var.t → Var.t → option (nat * nat);
  neighbors : Var.t → list Var.t
}.

(** ** Outcomes of calls that may raise *)

Inductive exn := IndexError | KeyError | TypeError | ValueError.

Inductive outcome (A : Type) : Type :=
  | Ok (a : A)
  | Raise (e : exn)
  | OutOfFuel.
Arguments Ok {A} a.
Arguments Raise {A} e.
Arguments OutOfFuel {A}.

#[global] Instance exn_eq_dec : EqDecision exn.
Proof. solve_decision. Defined.

#[global] Instance outcome_eq_dec {A} `{EqDecision A} : EqDecision (outcome A).
Proof. solve_decision. Defined.

#[global] Instance outcome_ret : MRet outcome := λ A a, Ok a.
#[global] Instance outcome_bind : MBind outcome := λ A B f m,
  match m with
  | Ok a => f a
  | Raise e => Raise e
  | OutOfFuel => OutOfFuel
  end.

(** [all(...)], [any(...)] and a set comprehension with a condition, over a
    generator whose elements may raise: evaluation is left to right and
    stops at the first deciding element. *)
Fixpoint allM {A} (p : A → outcome bool) (l : list A) : outcome bool :=
  match l with
  | [] => Ok true
  | a :: l' => b ← p a; if b : bool then allM p l' else Ok false
  end.

Fixpoint anyM {A} (p : A → outcome bool) (l : list A) : outcome bool :=
  match l with
  | [] => Ok false
  | a :: l' => b ← p a; if b : bool then Ok true else anyM p l'
  end.

Fixpoint filterM {A} (p : A → outcome bool) (l : list A) : outcome (list A) :=
  match l with
  | [] => Ok []
  | a :: l' => b ← p a; r ← filterM p l'; Ok (if b : bool then a :: r else r)
  end.

(** [sum(1 for x in l if p x)] *)
Fixpoint countM {A} (p : A → outcome bool) (l : list A) : outcome nat :=
  match l with
  | [] => Ok 0
  | a :: l' => b ← p a; n ← countM p l'; Ok (if b : bool then S n else n)
  end.

(** A comprehension whose element expression may raise. *)
Fixpoint mapM {A B} (f : A → outcome B) (l : list A) : outcome (list B) :=
  match l with
  | [] => Ok []
  | a :: l' => b ← f a; r ← mapM f l'; Ok (b :: r)
  end.

(** [d[k]] on a dict: [KeyError] when the key is absent. *)
Definition getitem {V} (d : gmap Var.t V) (k : Var.t) : outcome V :=
  match d !! k with
  | Some v => Ok v
  | None => Raise KeyError
  end.

(** [w[k]] on a string with a non-negative index. *)
Definition str_index (w : string) (k : nat) : outcome Ascii.ascii :=
  match String.get k w with
  | Some ch => Ok ch
  | None => Raise IndexError
  end.

(** [t[0]] and [t[1]] on an entry of the overlap table: subscripting [None]
    raises [TypeError]. *)
Definition overlap_fst (o : option (nat * nat)) : outcome nat :=
  match o with Some p => Ok (fst p) | None => Raise TypeError end.
Definition overlap_snd (o : option (nat * nat)) : outcome nat :=
  match o with Some p => Ok (snd p) | None => Raise TypeError end.

(** Membership and equality of word sets. *)
Definition word_in (w : string) (l : list string) : bool :=
  existsb (String.eqb w) l.

Definition set_eqb (l1 l2 : list string) : bool :=
  forallb (λ w, word_in w l2) l1 && forallb (λ w, word_in w l1) l2.

(** ** The solver state *)

Abbreviation Domains := (gmap Var.t (list string)).
Abbreviation Assignment := (gmap Var.t string).
Abbreviation Arc := (Var.t * Var.t)%type.

(** [__init__]: every slot starts with a copy of the whole vocabulary. *)
Definition init (c : Crossword) : Domains :=
  list_to_map ((λ var, (var, words c)) <$> variables c).

(** [enforce_node_consistency]: each entry of [self.domains.items()] is
    visited once and its value replaced by the words of the slot's length. *)
Definition enforce_node_consistency (d : Domains) : Domains :=
  foldl (λ acc '(value, ws),
           <[value := filter (λ word, String.length word = Var.length value) ws]> acc)
        d (map_to_list d).

(** [revise] *)
Definition revise (c : Crossword) (x y : Var.t) (d : Domains)
  : outcome (bool * Domains) :=
  match overlaps c x y with
  | Some overlap =>
      dx ← getitem d x;
      valid_words ←
        filterM (λ word_x,
                   dy ← getitem d y;
                   anyM (λ word_y,
                           a ← str_index word_x (fst overlap);
                           b ← str_index word_y (snd overlap);
                           Ok (bool_decide (a = b))) dy) dx;
      dx' ← getitem d x;
      if set_eqb dx' valid_words then Ok (false, d)
      else Ok (true, <[x := valid_words]> d)
  | None => Ok (false, d)
  end.

(** [arcs.pop()]: the last element of the list. *)
Definition pop (arcs : list Arc) : option (Arc * list Arc) :=
  match reverse arcs with
  | [] => None
  | a :: r => Some (a, reverse r)
  end.

(** [for z in neighbors(x) - {y}: arcs.insert(0, (z, x))] *)
Definition enqueue_neighbors (c : Crossword) (x y : Var.t) (arcs : list Arc)
  : list Arc :=
  foldl (λ q z, (z, x) :: q) arcs (filter (λ z, z ≠ y) (neighbors c x)).

(** The arcs [ac3] starts from when it is given none. *)
Definition all_arcs (d : Domains) : list Arc :=
  let keys := (map_to_list d).*1 in
  x ← keys; y ← keys; if decide (x ≠ y) then [(x, y)] else [].

(** One turn of the [while arcs:] loop.  [inl b] is [return b]; [inr] is the
    state at the end of the loop body. *)
Definition ac3_body (c : Crossword) (arcs : list Arc) (d : Domains)
  : outcome (bool * Domains + list Arc * Domains) :=
  match pop arcs with
  | None => Ok (inl (true, d))
  | Some ((x, y), arcs') =>
      '(revised, d') ← revise c x y d;
      emptied ← (if revised : bool
                 then dx ← getitem d' x; Ok (bool_decide (dx = []))
                 else Ok false);
      if emptied : bool then Ok (inl (false, d'))
      else Ok (inr (enqueue_neighbors c x y arcs', d'))
  end.

Fixpoint ac3_loop (c : Crossword) (fuel : nat) (arcs : list Arc) (d : Domains)
  : outcome (bool * Domains) :=
  match fuel with
  | 0 => OutOfFuel
  | S fuel' =>
      r ← ac3_body c arcs d;
      match r with
      | inl res => Ok res
      | inr (arcs', d') => ac3_loop c fuel' arcs' d'
      end
  end.

(** [ac3(arcs=None)]: [not arcs] holds for [None] and for the empty list. *)
Definition ac3 (c : Crossword) (fuel : nat) (arcs : option (list Arc))
    (d : Domains) : outcome (bool * Domains) :=
  let arcs :=
    match arcs with
    | None | Some [] => all_arcs d
    | Some l => l
    end in
  ac3_loop c fuel arcs d.

(** [assignment_complete] *)
Definition assignment_complete (d : Domains) (a : Assignment) : bool :=
  bool_decide (dom a = dom d).

(** [consistent]: the three checks are all evaluated, then combined. *)
Definition consistent (c : Crossword) (a : Assignment) : outcome bool :=
  let words_fit_board :=
    forallb (λ word : Var.t * string,
               bool_decide (String.length (snd word) = Var.length (fst word)))
            (map_to_list a) in
  let values := (map_to_list a).*2 in
  let repetition :=
    bool_decide (length values = length (remove_dups values)) in
  words_no_conflict ←
    allM (λ '(word, neighbour),
            wn ← getitem a neighbour;
            o0 ← overlap_fst (overlaps c neighbour word);
            lhs ← str_index wn o0;
            ww ← getitem a word;
            o1 ← overlap_snd (overlaps c neighbour word);
            rhs ← str_index ww o1;
            Ok (bool_decide (lhs = rhs)))
         (word ← (map_to_list a).*1;
          neighbour ← neighbors c word;
          if decide (is_Some (a !! neighbour)) then [(word, neighbour)] else []);
  Ok (repetition && words_fit_board && words_no_conflict).

(** [sorted(..., key=...)] is stable: equal keys keep their order. *)
Fixpoint insert_by_key (x : string * nat) (l : list (string * nat))
  : list (string * nat) :=
  match l with
  | [] => [x]
  | y :: l' => if (snd x <=? snd y)%nat then x :: l else y :: insert_by_key x l'
  end.

Definition sorted_by_key (l : list (string * nat)) : list (string * nat) :=
  foldr insert_by_key [] l.

(** The number of neighbour words that [word] rules out. *)
Definition rule_out (c : Crossword) (d : Domains) (var : Var.t)
    (a : Assignment) (word : string) : outcome nat :=
  counts ←
    mapM (λ neighbour,
            dn ← getitem d neighbour;
            countM (λ neighbour_word,
                      o0 ← overlap_fst (overlaps c neighbour var);
                      lhs ← str_index neighbour_word o0;
                      o1 ← overlap_snd (overlaps c neighbour var);
                      rhs ← str_index word o1;
                      Ok (bool_decide (lhs ≠ rhs))) dn)
         (filter (λ neighbour, a !! neighbour = None) (neighbors c var));
  Ok (sum_list counts).

(** [order_domain_values] *)
Definition order_domain_values (c : Crossword) (d : Domains) (var : Var.t)
    (a : Assignment) : outcome (list string) :=
  dv ← getitem d var;
  rule_out_per_word ← mapM (λ word, n ← rule_out c d var a word; Ok (word, n)) dv;
  Ok ((sorted_by_key rule_out_per_word).*1).

(** [max(..., key=...)]: the first element whose key no later one exceeds;
    [ValueError] on an empty sequence.  Keys are pairs compared
    lexicographically. *)
Definition key_lt (k1 k2 : Z * Z) : bool :=
  ((fst k1 <? fst k2) || ((fst k1 =? fst k2) && (snd k1 <? snd k2)))%Z.

Definition py_max {A} (key : A → Z * Z) (l : list A) : outcome A :=
  match l with
  | [] => Raise ValueError
  | a :: l' =>
      Ok (foldl (λ best x, if key_lt (key best) (key x) then x else best) a l')
  end.

(** [select_unassigned_variable] *)
Definition select_unassigned_variable (c : Crossword) (d : Domains)
    (a : Assignment) : outcome Var.t :=
  best ←
    py_max snd
      ((λ domain : Var.t * list string,
          (fst domain,
           (- Z.of_nat (length (snd domain)),
            Z.of_nat (length (neighbors c (fst domain))))%Z))
         <$> filter (λ domain : Var.t * list string, a !! fst domain = None)
                    (map_to_list d));
  Ok (fst best).

(** [del assignment[k]] *)
Definition delitem (a : Assignment) (k : Var.t) : outcome Assignment :=
  match a !! k with
  | Some _ => Ok (delete k a)
  | None => Raise KeyError
  end.

(** [if result:] on [None] or a dict. *)
Definition truthy (result : option Assignment) : bool :=
  match result with
  | Some r => bool_decide (r ≠ ∅)
  | None => false
  end.

(** The [for value in ...] loop of [backtrack].  The assignment is one
    mutable dict shared by all frames: each call returns, next to its
    result, the dict as it leaves it. *)
Fixpoint backtrack_loop (c : Crossword)
    (rec : Assignment → outcome (option Assignment * Assignment))
    (unassigned_var : Var.t) (values : list string) (a : Assignment)
  : outcome (option Assignment * Assignment) :=
  match values with
  | [] => Ok (None, a)
  | value :: rest =>
      let a1 := <[unassigned_var := value]> a in
      ok ← consistent c a1;
      if ok : bool then
        '(result, a2) ← rec a1;
        if truthy result then Ok (result, a2)
        else a3 ← delitem a2 unassigned_var;
             backtrack_loop c rec unassigned_var rest a3
      else backtrack_loop c rec unassigned_var rest a1
  end.

(** [backtrack] *)
Fixpoint backtrack (c : Crossword) (d : Domains) (fuel : nat) (a : Assignment)
  : outcome (option Assignment * Assignment) :=
  match fuel with
  | 0 => OutOfFuel
  | S fuel' =>
      if assignment_complete d a then Ok (Some a, a)
      else
        unassigned_var ← select_unassigned_variable c d a;
        values ← order_domain_values c d unassigned_var a;
        backtrack_loop c (backtrack c d fuel') unassigned_var values a
  end.

(** [solve], on the domains [d] the creator holds ([init c] when [main]
    runs it): the result of [ac3] is not looked at. *)
Definition solve (c : Crossword) (fuel : nat) (d : Domains)
  : outcome (option Assignment) :=
  let d1 := enforce_node_consistency d in
  '(_, d2) ← ac3 c fuel None d1;
  '(result, _) ← backtrack c d2 fuel ∅;
  Ok result.

(** The test [revise] applies to a word of [domains[x]]. *)
Definition supported (d : Domains) (y : Var.t) (overlap : nat * nat)
    (word_x : string) : outcome bool :=
  dy ← getitem d y;
  anyM (λ word_y,
          a ← str_index word_x (fst overlap);
          b ← str_index word_y (snd overlap);
          Ok (bool_decide (a = b))) dy.

(** ** What the solver is to achieve *)

Definition fits_board (a : Assignment) : Prop :=
  ∀ v w, a !! v = Some w → String.length w = Var.length v.

Definition no_repetition (a : Assignment) : Prop :=
  ∀ v1 v2 w, a !! v1 = Some w → a !! v2 = Some w → v1 = v2.

Definition no_conflict (c : Crossword) (a : Assignment) : Prop :=
  ∀ v n wv wn,
    a !! v = Some wv → n ∈ neighbors c v → a !! n = Some wn →
    ∃ overlap ch,
      overlaps c n v = Some overlap ∧
      String.get (fst overlap) wn = Some ch ∧
      String.get (snd overlap) wv = Some ch.

Definition is_consistent (c : Crossword) (a : Assignment) : Prop :=
  fits_board a ∧ no_repetition a ∧ no_conflict c a.

Definition is_complete (c : Crossword) (a : Assignment) : Prop :=
  dom a = list_to_set (variables c).

(** ** Sample grids *)

(** A grid given by its slots, its vocabulary and the table of crossing
    cells: [overlaps] reads the table, and the neighbours of a slot are the
    other slots that cross it. *)
Definition table_lookup (table : list (Arc * (nat * nat))) (v1 v2 : Var.t)
  : option (nat * nat) :=
  match list_find (λ e, fst e = (v1, v2)) table with
  | Some (_, e) => Some (snd e)
  | None => None
  end.

Definition grid_of (slots : list Var.t) (vocabulary : list string)
    (table : list (Arc * (nat * nat))) : Crossword := {|
  variables := slots;
  words := vocabulary;
  overlaps := table_lookup table;
  neighbors := λ var,
    filter (λ v, v ≠ var ∧ is_Some (table_lookup table v var)) slots
|}.

(** A ring: four slots of length 3 around a blocked centre cell.
<<
      _ _ _
      _ # _
      _ _ _
>> *)
Module Ring.
Definition top := Var.mk 0 0 ACROSS 3.
Definition bottom := Var.mk 2 0 ACROSS 3.
Definition left := Var.mk 0 0 DOWN 3.
Definition right := Var.mk 0 2 DOWN 3.

Definition grid : Crossword :=
  grid_of [top; bottom; left; right] ["AHA"; "AGA"; "ALA"; "AVA"]
    [ (top, left, (0, 0)); (left, top, (0, 0));
      (top, right, (2, 0)); (right, top, (0, 2));
      (bottom, left, (0, 2)); (left, bottom, (2, 0));
      (bottom, right, (2, 2)); (right, bottom, (2, 2)) ].

Definition filling : Assignment :=
  {[ top := "AHA"; left := "AGA"; right := "ALA"; bottom := "AVA" ]}.

(** The domains as [solve] hands them to [ac3]. *)
Definition domains : Domains := enforce_node_consistency (init grid).

(** Every ordered pair of distinct slots. *)
Definition arcs : list Arc := Eval vm_compute in all_arcs domains.

(** The work list after its last arc has been taken. *)
Definition rest : list Arc := Eval vm_compute in reverse (tail (reverse arcs)).

(** An assignment whose only defect is a word one letter short. *)
Definition short_top : Assignment := {[ top := "AH"; right := "ALA" ]}.
End Ring.

(** A corner: two slots of length 2; the first letter of the across slot is
    the second letter of the down slot.
<<
      _ #
      _ _
>> *)
Module Corner.
Definition across := Var.mk 1 0 ACROSS 2.
Definition down := Var.mk 0 0 DOWN 2.

Definition table : list (Arc * (nat * nat)) :=
  [ (across, down, (0, 1)); (down, across, (1, 0)) ].

Definition grid (vocabulary : list string) : Crossword :=
  grid_of [across; down] vocabulary table.

(** [domains] of [grid ["AB"; "BC"]] after [revise(across, down)], and
    after [ac3]. *)
Definition pruned : Domains := <[across := ["BC"]]> (init (grid ["AB"; "BC"])).
Definition arc_consistent : Domains := {[ across := ["BC"]; down := ["AB"] ]}.

(** A filling of [grid ["BC"; "CB"]]. *)
Definition found : Assignment := {[ across := "CB"; down := "BC" ]}.

(** A filling of [grid ["AA"; "BC"; "CB"; "DD"]]. *)
Definition filling : Assignment := {[ across := "BC"; down := "CB" ]}.
End Corner.

(** ** Properties of the domain store *)

(** Every word of every domain has the length of its slot. *)
Definition node_consistent (d : Domains) : Prop :=
  ∀ v w, w ∈ d !!! v → String.length w = Var.length v.

(** Every word of [domains[x]] agrees, where [x] and [y] cross, with some
    word of [domains[y]]. *)
Definition arc_consistent (c : Crossword) (d : Domains) (x y : Var.t) : Prop :=
  ∀ overlap w,
    overlaps c x y = Some overlap → w ∈ d !!! x →
    ∃ w' ch,
      w' ∈ d !!! y ∧
      String.get (fst overlap) w = Some ch ∧
      String.get (snd overlap) w' = Some ch.

(** What the solver relies on in the grid model: the overlap table lists a
    crossing from both sides, and the neighbours of a slot are the other
    slots that have an entry with it. *)
Definition coherent (c : Crossword) : Prop :=
  (∀ x y overlap,
     overlaps c x y = Some overlap →
     overlaps c y x = Some (snd overlap, fst overlap)) ∧
  (∀ x z, z ∈ neighbors c x ↔
          z ∈ variables c ∧ z ≠ x ∧ is_Some (overlaps c z x)).

(** The crossing offsets of every pair of neighbours lie inside the two
    slots. *)
Definition offsets_in_slots (c : Crossword) : Prop :=
  ∀ x y overlap,
    overlaps c x y = Some overlap →
    fst overlap < Var.length x ∧ snd overlap < Var.length y.


(** The order of the keys [max] compares in [select_unassigned_variable]. *)
Definition key_below (k1 k2 : Z * Z) : Prop :=
  (fst k1 < fst k2 ∨ (fst k1 = fst k2 ∧ snd k1 < snd k2))%Z.

(** ** Properties of the search state *)

(** Every entry of [s] is an entry of [a] or gives a slot a word of its
    domain. *)
Definition drawn_from (d : Domains) (a s : Assignment) : Prop :=
  ∀ v w, s !! v = Some w → a !! v = Some w ∨ w ∈ d !!! v.

(** The number of slots of the store that [a] leaves open. *)
Definition unassigned (d : Domains) (a : Assignment) : nat :=
  size (dom d ∖ dom a).


(** ** Rendering *)

(** The 2D array of [letter_grid]: a list of rows of cells, a cell being
    [None] or a character. *)
Abbreviation Letters := (list (list (option Ascii.ascii))).

(** [letters[i][j] = ch]: [IndexError] when the row or the column is not
    there. *)
Definition set_letter (letters : Letters) (i j : nat) (ch : Ascii.ascii)
  : outcome Letters :=
  match letters !! i with
  | Some row =>
      if decide (j < length row)
      then Ok (<[i := <[j := Some ch]> row]> letters)
      else Raise IndexError
  | None => Raise IndexError
  end.

(** A [for] loop whose body may raise. *)
Fixpoint foldM {A S} (f : S → A → outcome S) (s : S) (l : list A) : outcome S :=
  match l with
  | [] => Ok s
  | a :: l' => s' ← f s a; foldM f s' l'
  end.

(** [letter_grid], for a grid of [height] rows and [width] columns (the
    crossword's [height] and [width]). *)
Definition letter_grid (height width : nat) (a : Assignment) : outcome Letters :=
  foldM (λ letters '(variable, word),
           foldM (λ letters k,
                    let i := Var.i variable +
                             (if decide (Var.direction variable = DOWN) then k else 0) in
                    let j := Var.j variable +
                             (if decide (Var.direction variable = ACROSS) then k else 0) in
                    ch ← str_index word k;
                    set_letter letters i j ch)
                 letters (seq 0 (String.length word)))
        (replicate height (replicate width None)) (map_to_list a).

(** The cell that holds letter [k] of a slot. *)
Definition cell_of (variable : Var.t) (k : nat) : nat * nat :=
  (Var.i variable + (if decide (Var.direction variable = DOWN) then k else 0),
   Var.j variable + (if decide (Var.direction variable = ACROSS) then k else 0)).

(** [letters[i][j]], when the cell is there. *)
Definition letter_at (letters : Letters) (cell : nat * nat)
  : option (option Ascii.ascii) :=
  row ← letters !! fst cell; row !! snd cell.

Definition has_size (height width : nat) (letters : Letters) : Prop :=
  length letters = height ∧ ∀ row, row ∈ letters → length row = width.


(** The inner loop of [letter_grid]: the letters of one word. *)
Definition write_word (variable : Var.t) (word : string) (letters : Letters)
  : outcome Letters :=
  foldM (λ letters k,
           ch ← str_index word k;
           set_letter letters (cell_of variable k).1 (cell_of variable k).2 ch)
        letters (seq 0 (String.length word)).


(** ** More sample data on the corner grid *)

Module Demo.
(** Two words that fit one way round, two words that do not fit, and a grid
    without slots. *)
Definition fitting : Crossword := Corner.grid ["AB"; "BC"].
Definition clashing : Crossword := Corner.grid ["AB"; "CD"].
Definition no_slots : Crossword := grid_of [] [] [].

(** [clashing]'s store after [ac3]. *)
Definition emptied : Domains :=
  {[ Corner.across := []; Corner.down := ["AB"; "CD"] ]}.

(** A grid with three two-letter words, and the order in which the down
    slot's words are tried on it. *)
Definition three_words : Crossword := Corner.grid ["AB"; "BC"; "BB"].
Definition down_order : list string := ["AB"; "BB"; "BC"].

(** The corner grid filled in, as [letter_grid] draws it on 2 x 2 cells. *)
Definition drawn : Letters :=
  [ [Some "C"%char; None]; [Some "B"%char; Some "C"%char] ].
End Demo.


(** ** Reasoning about outcomes *)

Lemma bind_Ok {A B} (m : outcome A) (f : A → outcome B) (r : B) :
  m ≫= f = Ok r → ∃ a, m = Ok a ∧ f a = Ok r.
Proof. destruct m as [a| |]; simpl; [eauto | discriminate | discriminate]. Qed.

Ltac inv_bind H :=
  let a := fresh "a" in
  let E := fresh "E" in
  apply bind_Ok in H as (a & E & H).

Lemma getitem_Ok {V} (d : gmap Var.t V) k v : getitem d k = Ok v ↔ d !! k = Some v.
Proof. unfold getitem. destruct (d !! k); split; congruence. Qed.

Lemma str_index_Ok w k ch : str_index w k = Ok ch ↔ String.get k w = Some ch.
Proof. unfold str_index. destruct (String.get k w); split; congruence. Qed.

Lemma anyM_true {A} (p : A → outcome bool) l :
  anyM p l = Ok true → ∃ a, a ∈ l ∧ p a = Ok true.
Proof.
  induction l as [|a l IH]; simpl; [discriminate|].
  intros H. inv_bind H. destruct a0.
  - exists a. split; [left | done].
  - destruct (IH H) as (a' & ? & ?). exists a'. split; [by right | done].
Qed.

Lemma anyM_false {A} (p : A → outcome bool) l :
  anyM p l = Ok false → ∀ a, a ∈ l → p a = Ok false.
Proof.
  induction l as [|a l IH]; simpl; intros H a' Hin.
  - by apply elem_of_nil in Hin.
  - inv_bind H. destruct a0; [discriminate|].
    apply elem_of_cons in Hin as [->|Hin]; [done | by apply IH].
Qed.

Lemma allM_true {A} (p : A → outcome bool) l :
  allM p l = Ok true ↔ ∀ a, a ∈ l → p a = Ok true.
Proof.
  induction l as [|a l IH]; simpl.
  - split; [intros _ a Hin; by apply elem_of_nil in Hin | done].
  - split.
    + intros H. inv_bind H. destruct a0; [|discriminate].
      intros a' [->|Hin]%elem_of_cons; [done | by apply IH].
    + intros H. rewrite (H a) by left. simpl.
      apply IH. intros a' Hin. apply H. by right.
Qed.

Lemma filterM_Ok {A} (p : A → outcome bool) l r :
  filterM p l = Ok r →
  (∀ a, a ∈ r ↔ a ∈ l ∧ p a = Ok true) ∧ (∀ a, a ∈ l → ∃ b, p a = Ok b).
Proof.
  revert r. induction l as [|a l IH]; simpl; intros r H.
  - injection H as <-. split.
    + intros a. split; [by intros ?%elem_of_nil | by intros [?%elem_of_nil _]].
    + by intros a ?%elem_of_nil.
  - inv_bind H. inv_bind H. injection H as <-.
    destruct (IH _ E0) as [IH1 IH2]. split.
    + intros a'. destruct a0.
      * rewrite !elem_of_cons, IH1. split.
        -- intros [->|[? ?]]; [split; [by left | done] | split; [by right | done]].
        -- intros [[->|?] ?]; [by left | by right].
      * rewrite elem_of_cons, IH1. split.
        -- intros [? ?]. split; [by right | done].
        -- intros [[->|?] ?]; [congruence | done].
    + intros a' [->|?]%elem_of_cons; [eauto | by apply IH2].
Qed.

Lemma word_in_spec w l : word_in w l = true ↔ w ∈ l.
Proof.
  unfold word_in. rewrite existsb_exists. split.
  - intros (w' & Hin & Heq). apply String.eqb_eq in Heq as ->.
    by apply list_elem_of_In.
  - intros Hin. exists w. split; [by apply list_elem_of_In | apply String.eqb_refl].
Qed.

Lemma set_eqb_spec l1 l2 : set_eqb l1 l2 = true ↔ ∀ w, w ∈ l1 ↔ w ∈ l2.
Proof.
  unfold set_eqb. rewrite andb_true_iff, !forallb_forall. split.
  - intros [H1 H2] w. split; intros Hin.
    + apply word_in_spec, H1. by apply list_elem_of_In.
    + apply word_in_spec, H2. by apply list_elem_of_In.
  - intros H. split; intros w Hin%list_elem_of_In; apply word_in_spec, H, Hin.
Qed.

(** ** [revise] *)

Lemma supported_true d y overlap word_x :
  supported d y overlap word_x = Ok true →
  ∃ word_y ch, word_y ∈ d !!! y ∧
    String.get (fst overlap) word_x = Some ch ∧
    String.get (snd overlap) word_y = Some ch.
Proof.
  unfold supported. intros H. inv_bind H. apply getitem_Ok in E.
  apply anyM_true in H as (word_y & Hin & H).
  inv_bind H. inv_bind H. injection H as H. apply bool_decide_eq_true in H as ->.
  exists word_y, a1. rewrite lookup_total_alt, E. simpl.
  by rewrite <- !str_index_Ok.
Qed.

Lemma supported_false d y overlap word_x :
  supported d y overlap word_x = Ok false →
  ∀ word_y ch, word_y ∈ d !!! y →
    String.get (fst overlap) word_x = Some ch →
    String.get (snd overlap) word_y = Some ch → False.
Proof.
  unfold supported. intros H word_y ch Hin Hx Hy. inv_bind H.
  apply getitem_Ok in E. rewrite lookup_total_alt, E in Hin. simpl in Hin.
  pose proof (anyM_false _ _ H _ Hin) as H'. simpl in H'.
  apply str_index_Ok in Hx, Hy. rewrite Hx, Hy in H'. simpl in H'.
  injection H' as H'. by apply bool_decide_eq_false in H'.
Qed.

Lemma revise_unfold c x y d :
  revise c x y d =
  match overlaps c x y with
  | Some overlap =>
      dx ← getitem d x;
      valid_words ← filterM (supported d y overlap) dx;
      dx' ← getitem d x;
      if set_eqb dx' valid_words then Ok (false, d)
      else Ok (true, <[x := valid_words]> d)
  | None => Ok (false, d)
  end.
Proof. reflexivity. Qed.

Lemma revise_Ok_inv c x y d r d' :
  revise c x y d = Ok (r, d') →
  (overlaps c x y = None ∧ r = false ∧ d' = d) ∨
  (∃ overlap dx valid_words,
      overlaps c x y = Some overlap ∧ d !! x = Some dx ∧
      filterM (supported d y overlap) dx = Ok valid_words ∧
      ((set_eqb dx valid_words = true ∧ r = false ∧ d' = d) ∨
       (set_eqb dx valid_words = false ∧ r = true ∧
        d' = <[x := valid_words]> d))).
Proof.
  unfold revise. destruct (overlaps c x y) as [overlap|].
  - intros H. right. inv_bind H. inv_bind H. inv_bind H.
    apply getitem_Ok in E, E1. rewrite E in E1. injection E1 as <-.
    exists overlap, a, a0. split_and!; [done..|].
    destruct (set_eqb a a0); injection H as <- <-; [by left | by right].
  - intros H. injection H as <- <-. by left.
Qed.

Lemma get_in_range k w :
  k < String.length w → ∃ ch, String.get k w = Some ch.
Proof.
  revert k. induction w as [|ch w IH]; simpl; intros k Hk; [lia|].
  destruct k as [|k]; [eauto | apply IH; lia].
Qed.

Lemma filterM_returns {A} (p : A → outcome bool) l :
  (∀ a, a ∈ l → ∃ b, p a = Ok b) → ∃ r, filterM p l = Ok r.
Proof.
  induction l as [|a l IH]; simpl; intros H; [eauto|].
  destruct (H a) as [b ->]; [left|]. simpl.
  destruct IH as [r ->]; [intros a' ?; apply H; by right|].
  simpl. eauto.
Qed.

Lemma anyM_returns {A} (p : A → outcome bool) l :
  (∀ a, a ∈ l → ∃ b, p a = Ok b) → ∃ r, anyM p l = Ok r.
Proof.
  induction l as [|a l IH]; simpl; intros H; [eauto|].
  destruct (H a) as [b ->]; [left|]. simpl.
  destruct b; [eauto|]. apply IH. intros a' ?. apply H. by right.
Qed.

(** [revise] returns whenever both slots have a domain and the crossing
    offsets lie inside the words in play, as they do once the domains are
    node consistent. *)
Lemma revise_returns c x y d :
  is_Some (d !! x) → is_Some (d !! y) →
  (∀ overlap, overlaps c x y = Some overlap →
     (∀ w, w ∈ d !!! x → fst overlap < String.length w) ∧
     (∀ w, w ∈ d !!! y → snd overlap < String.length w)) →
  ∃ r d', revise c x y d = Ok (r, d').
Proof.
  intros [dx Hx] [dy Hy] Hrange. rewrite revise_unfold.
  destruct (overlaps c x y) as [overlap|]; [|eauto].
  destruct (Hrange overlap eq_refl) as [Rx Ry].
  rewrite lookup_total_alt, Hx in Rx. rewrite lookup_total_alt, Hy in Ry.
  simpl in Rx, Ry.
  apply getitem_Ok in Hx, Hy.
  destruct (filterM_returns (supported d y overlap) dx) as [valid Hvalid].
  { intros w Hw. unfold supported. rewrite Hy. cbn [mbind outcome_bind].
    apply anyM_returns. intros w' Hw'.
    destruct (get_in_range _ _ (Rx _ Hw)) as [a Ha].
    destruct (get_in_range _ _ (Ry _ Hw')) as [b Hb].
    unfold str_index. rewrite Ha, Hb. simpl. eauto. }
  rewrite Hx. cbn [mbind outcome_bind]. rewrite Hvalid. cbn [mbind outcome_bind].
  destruct (set_eqb dx valid); eauto.
Qed.

(** C7.  Whenever [revise(x, y)] returns on two distinct slots, the words
    of [domains[x]] afterwards are exactly the words it held before that
    either face no overlap with [y] or agree, at the crossing offsets, with
    some word of [domains[y]]; and the result is [True] exactly when the
    set [domains[x]] has changed. *)
Theorem revise_sound c x y d r d' :
  x ≠ y →
  revise c x y d = Ok (r, d') →
  (∀ w, w ∈ d' !!! x ↔
        w ∈ d !!! x ∧
        (overlaps c x y = None ∨
         ∃ overlap w' ch,
           overlaps c x y = Some overlap ∧ w' ∈ d !!! y ∧
           String.get (fst overlap) w = Some ch ∧
           String.get (snd overlap) w' = Some ch)) ∧
  (r = true ↔ ¬ (∀ w, w ∈ d' !!! x ↔ w ∈ d !!! x)).
Proof.
  intros _ H.
  apply revise_Ok_inv in H
    as [(Hno & -> & ->)|(overlap & dx & valid & Ho & Hx & Hf & Hcase)].
  - split; [|split; [discriminate | intros Hn; by destruct Hn]].
    intros w. split; [intros ?; split; [done | by left] | by intros [? _]].
  - destruct (filterM_Ok _ _ _ Hf) as [Hvalid Hdef].
    assert (Hkeep : ∀ w, w ∈ valid ↔
              w ∈ d !!! x ∧
              (overlaps c x y = None ∨
               ∃ overlap w' ch,
                 overlaps c x y = Some overlap ∧ w' ∈ d !!! y ∧
                 String.get (fst overlap) w = Some ch ∧
                 String.get (snd overlap) w' = Some ch)).
    { intros w. rewrite Hvalid, (lookup_total_alt d x), Hx. simpl.
      split.
      - intros [Hin Hs]. split; [done|]. right.
        apply supported_true in Hs as (w' & ch & ? & ? & ?).
        by exists overlap, w', ch.
      - intros [Hin [Hno|(o & w' & ch & Ho' & Hin' & Hgx & Hgy)]];
          [congruence|].
        split; [done|]. rewrite Ho in Ho'. injection Ho' as <-.
        destruct (Hdef w Hin) as [[] Hb]; [done|].
        destruct (supported_false _ _ _ _ Hb w' ch Hin' Hgx Hgy). }
    destruct Hcase as [(Heq & -> & ->)|(Hne & -> & ->)].
    + pose proof (proj1 (set_eqb_spec _ _) Heq) as Hsame. split.
      * intros w. rewrite <- Hkeep, <- Hsame, lookup_total_alt, Hx. done.
      * split; [discriminate | intros Hn; by destruct Hn].
    + rewrite lookup_total_insert_eq. split; [done|].
      split; [|done]. intros _ Hall.
      assert (set_eqb dx valid = true) as Heq; [|congruence].
      apply set_eqb_spec. intros w.
      rewrite Hall, lookup_total_alt, Hx. done.
Qed.

(** ** The domain store under propagation *)

Lemma lookup_foldl_insert (f : Var.t → list string → list string)
    (l : list (Var.t * list string)) (acc : Domains) v :
  NoDup l.*1 →
  foldl (λ acc '(value, ws), <[value := f value ws]> acc) acc l !! v =
  match (list_to_map l : Domains) !! v with
  | Some ws => Some (f v ws)
  | None => acc !! v
  end.
Proof.
  revert acc. induction l as [|[k ws] l IH]; intros acc Hnd; [reflexivity|].
  rewrite fmap_cons in Hnd. apply NoDup_cons in Hnd as [Hk Hnd].
  simpl in Hk. simpl. rewrite IH by done.
  destruct (decide (k = v)) as [->|Hne].
  - rewrite (not_elem_of_list_to_map_1 (M := gmap Var.t) l v Hk).
    by rewrite !lookup_insert_eq.
  - by rewrite !lookup_insert_ne.
Qed.

Lemma lookup_enforce_node_consistency d v :
  enforce_node_consistency d !! v =
  filter (λ word, String.length word = Var.length v) <$> d !! v.
Proof.
  unfold enforce_node_consistency.
  rewrite (lookup_foldl_insert
             (λ value ws, filter (λ word, String.length word = Var.length value) ws))
    by apply NoDup_fst_map_to_list.
  rewrite list_to_map_to_list. by destruct (d !! v).
Qed.

Lemma ac3_body_domains c arcs d out :
  ac3_body c arcs d = Ok out →
  let d' := match out with inl (_, d') => d' | inr (_, d') => d' end in
  d' = d ∨ ∃ x y r, revise c x y d = Ok (r, d').
Proof.
  unfold ac3_body. destruct (pop arcs) as [[[x y] arcs']|].
  - intros H. inv_bind H. destruct a as [revised d1].
    inv_bind H. right. exists x, y, revised.
    destruct a; injection H as <-; done.
  - intros H. injection H as <-. by left.
Qed.

Lemma ac3_loop_preserves (P : Domains → Prop) c :
  (∀ x y d r d', P d → revise c x y d = Ok (r, d') → P d') →
  ∀ fuel arcs d r d', P d → ac3_loop c fuel arcs d = Ok (r, d') → P d'.
Proof.
  intros Hrev. induction fuel as [|fuel IH]; intros arcs d r d' HP H;
    [discriminate|].
  simpl in H. inv_bind H.
  assert (HP' : P (match a with inl (_, d1) => d1 | inr (_, d1) => d1 end)).
  { destruct (ac3_body_domains _ _ _ _ E) as [->|(x & y & r' & Hr)];
      [done | by eapply Hrev]. }
  destruct a as [[r1 d1]|[arcs1 d1]].
  - by injection H as <- <-.
  - by eapply IH.
Qed.

Lemma ac3_preserves (P : Domains → Prop) c :
  (∀ x y d r d', P d → revise c x y d = Ok (r, d') → P d') →
  ∀ fuel arcs d r d', P d → ac3 c fuel arcs d = Ok (r, d') → P d'.
Proof. intros Hrev fuel arcs d r d' HP H. by eapply ac3_loop_preserves. Qed.

Lemma revise_dom c x y d r d' : revise c x y d = Ok (r, d') → dom d' = dom d.
Proof.
  intros H. apply revise_Ok_inv in H
    as [(_ & _ & ->)|(o & dx & valid & _ & Hx & _ & [(_ & _ & ->)|(_ & _ & ->)])];
    [done..|].
  apply dom_insert_lookup_L. by exists dx.
Qed.

Lemma revise_subseteq c x y d r d' v :
  revise c x y d = Ok (r, d') → d' !!! v ⊆ d !!! v.
Proof.
  intros H. apply revise_Ok_inv in H
    as [(_ & _ & ->)|(o & dx & valid & _ & Hx & Hf & [(_ & _ & ->)|(_ & _ & ->)])];
    [done..|].
  destruct (decide (x = v)) as [<-|Hne].
  - rewrite lookup_total_insert_eq, lookup_total_alt, Hx. simpl.
    intros w Hw. by apply (filterM_Ok _ _ _ Hf) in Hw as [? _].
  - by rewrite lookup_total_insert_ne.
Qed.

(** C8.  The domain store only shrinks: after [enforce_node_consistency],
    after a [revise] that returns and after an [ac3] that returns, every
    slot's domain is included in the domain the slot had before the call. *)
Theorem domains_only_shrink c :
  (∀ d v, enforce_node_consistency d !!! v ⊆ d !!! v) ∧
  (∀ x y d r d', revise c x y d = Ok (r, d') → ∀ v, d' !!! v ⊆ d !!! v) ∧
  (∀ fuel arcs d r d',
     ac3 c fuel arcs d = Ok (r, d') → ∀ v, d' !!! v ⊆ d !!! v).
Proof.
  split_and!.
  - intros d v. rewrite !lookup_total_alt, lookup_enforce_node_consistency.
    destruct (d !! v) as [ws|]; simpl; [|done].
    intros w Hw. by apply list_elem_of_filter in Hw as [_ ?].
  - intros x y d r d' H v. by eapply revise_subseteq.
  - intros fuel arcs d r d' H.
    apply (ac3_preserves (λ d1, ∀ v, d1 !!! v ⊆ d !!! v) c)
      with fuel arcs d r; [|done|done].
    intros x y d1 r1 d2 Hd1 Hr v. etrans; [by eapply revise_subseteq | apply Hd1].
Qed.

Lemma dom_init c : dom (init c) = list_to_set (variables c).
Proof.
  unfold init. rewrite dom_list_to_map_L, <- list_fmap_compose.
  f_equal. apply list_fmap_id.
Qed.

Lemma dom_enforce_node_consistency d : dom (enforce_node_consistency d) = dom d.
Proof.
  apply set_eq. intros v.
  rewrite !elem_of_dom, lookup_enforce_node_consistency.
  apply fmap_is_Some.
Qed.

Lemma ac3_dom c fuel arcs d r d' :
  ac3 c fuel arcs d = Ok (r, d') → dom d' = dom d.
Proof.
  intros H.
  apply (ac3_preserves (λ d1, dom d1 = dom d) c) with fuel arcs d r;
    [|done|done].
  intros x y d1 r1 d2 Hd1 Hr. rewrite <- Hd1. by eapply revise_dom.
Qed.

(** C9.  The domain store keeps one entry per slot: [__init__] creates the
    entries from the slot set, and [enforce_node_consistency], [revise] and
    [ac3] leave the key set as they found it. *)
Theorem domains_keys_preserved c :
  dom (init c) = list_to_set (variables c) ∧
  (∀ d, dom (enforce_node_consistency d) = dom d) ∧
  (∀ x y d r d', revise c x y d = Ok (r, d') → dom d' = dom d) ∧
  (∀ fuel arcs d r d', ac3 c fuel arcs d = Ok (r, d') → dom d' = dom d).
Proof.
  split_and!.
  - apply dom_init.
  - apply dom_enforce_node_consistency.
  - intros x y d r d'. apply revise_dom.
  - intros fuel arcs d r d'. apply ac3_dom.
Qed.


(** ** [consistent] *)

Lemma length_remove_dups_le (l : list string) :
  (length (remove_dups l) ≤ length l)%nat.
Proof.
  induction l as [|x l IH]; simpl; [lia|].
  destruct (decide_rel elem_of x l); simpl; lia.
Qed.

Lemma length_remove_dups_NoDup (l : list string) :
  length l = length (remove_dups l) ↔ NoDup l.
Proof.
  induction l as [|x l IH]; simpl.
  - split; [intros _; constructor | done].
  - destruct (decide_rel elem_of x l) as [Hin|Hin]; simpl.
    + split.
      * pose proof (length_remove_dups_le l). lia.
      * intros [? _]%NoDup_cons. done.
    + rewrite NoDup_cons. split.
      * intros H. split; [done|]. apply IH. lia.
      * intros [_ H]. apply IH in H. lia.
Qed.

Lemma NoDup_fmap_eq {A B} (f : A → B) (l : list A) x y :
  NoDup (f <$> l) → x ∈ l → y ∈ l → f x = f y → x = y.
Proof.
  induction l as [|z l IH]; [by intros _ ?%elem_of_nil|].
  rewrite fmap_cons, NoDup_cons, list_elem_of_fmap.
  intros [Hz Hnd] [->|Hx]%elem_of_cons [->|Hy]%elem_of_cons Hf; [done|..].
  - destruct Hz. by exists y.
  - destruct Hz. by exists x.
  - by apply IH.
Qed.

Lemma NoDup_snd_map_to_list (a : Assignment) :
  NoDup (map_to_list a).*2 ↔ no_repetition a.
Proof.
  split.
  - intros Hnd v1 v2 w H1 H2.
    apply elem_of_map_to_list in H1, H2.
    by pose proof (NoDup_fmap_eq snd _ _ _ Hnd H1 H2 eq_refl) as [= ->].
  - intros Hrep. apply NoDup_fmap_2_strong; [|apply NoDup_map_to_list].
    intros [v1 w1] [v2 w2] H1%elem_of_map_to_list H2%elem_of_map_to_list.
    simpl. intros <-. f_equal. by eapply Hrep.
Qed.

Lemma forallb_map_to_list (a : Assignment) :
  forallb (λ word : Var.t * string,
             bool_decide (String.length (snd word) = Var.length (fst word)))
          (map_to_list a) = true ↔ fits_board a.
Proof.
  rewrite forallb_forall. split.
  - intros H v w Hvw. apply elem_of_map_to_list, list_elem_of_In in Hvw.
    apply H in Hvw. by apply bool_decide_eq_true in Hvw.
  - intros H [v w] Hvw%list_elem_of_In%elem_of_map_to_list.
    apply bool_decide_eq_true. by apply H.
Qed.

(** The pairs [consistent] compares: an assigned slot with an assigned
    neighbour. *)
Lemma elem_of_assigned_pairs c (a : Assignment) v n :
  (v, n) ∈ (word ← (map_to_list a).*1;
            neighbour ← neighbors c word;
            if decide (is_Some (a !! neighbour)) then [(word, neighbour)] else [])
  ↔ is_Some (a !! v) ∧ n ∈ neighbors c v ∧ is_Some (a !! n).
Proof.
  rewrite list_elem_of_bind. split.
  - intros (word & Hin & Hword). apply list_elem_of_bind in Hin as (nb & Hin & Hnb).
    destruct (decide (is_Some (a !! nb))) as [Hs|]; [|by apply elem_of_nil in Hin].
    apply list_elem_of_singleton in Hin as [= -> ->].
    apply list_elem_of_fmap in Hword as ([v' w] & -> & Hvw%elem_of_map_to_list).
    split_and!; [by exists w | done | done].
  - intros ([w Hw] & Hn & Hs). exists v. split.
    + apply list_elem_of_bind. exists n. split; [|done].
      rewrite decide_True by done. by apply list_elem_of_singleton.
    + apply list_elem_of_fmap. exists (v, w). split; [done|].
      by apply elem_of_map_to_list.
Qed.

Lemma conflict_test_true c (a : Assignment) v n :
  (wn ← getitem a n;
   o0 ← overlap_fst (overlaps c n v);
   lhs ← str_index wn o0;
   ww ← getitem a v;
   o1 ← overlap_snd (overlaps c n v);
   rhs ← str_index ww o1;
   Ok (bool_decide (lhs = rhs))) = Ok true
  ↔ ∃ wn wv overlap ch,
      a !! n = Some wn ∧ a !! v = Some wv ∧ overlaps c n v = Some overlap ∧
      String.get (fst overlap) wn = Some ch ∧
      String.get (snd overlap) wv = Some ch.
Proof.
  split.
  - intros H. inv_bind H. inv_bind H. inv_bind H. inv_bind H. inv_bind H.
    inv_bind H. injection H as H. apply bool_decide_eq_true in H as ->.
    apply getitem_Ok in E, E2. apply str_index_Ok in E1, E4.
    destruct (overlaps c n v) as [overlap|]; [|discriminate].
    injection E0 as <-. injection E3 as <-.
    by exists a0, a3, overlap, a5.
  - intros (wn & wv & overlap & ch & Hn & Hv & Ho & Hgn & Hgv).
    apply getitem_Ok in Hn, Hv. apply str_index_Ok in Hgn, Hgv.
    rewrite Hn, Ho. simpl. rewrite Hgn. simpl. rewrite Hv. simpl.
    rewrite Hgv. simpl. by rewrite bool_decide_eq_true_2.
Qed.

(** The checker answers [True] exactly on the assignments whose words fit
    their slots, are pairwise distinct, and agree with every assigned
    neighbour at the crossing. *)
Lemma consistent_true_iff c a : consistent c a = Ok true ↔ is_consistent c a.
Proof.
  unfold consistent, is_consistent.
  rewrite <- forallb_map_to_list, <- NoDup_snd_map_to_list,
    <- length_remove_dups_NoDup.
  split.
  - intros H. inv_bind H. injection H as H.
    apply andb_true_iff in H as [[Hrep Hfit]%andb_true_iff ->].
    apply bool_decide_eq_true in Hrep. split_and!; [done..|].
    intros v n wv wn Hv Hn Hwn.
    pose proof (proj1 (allM_true _ _) E (v, n)) as Hp. simpl in Hp.
    apply conflict_test_true in Hp
      as (wn' & wv' & overlap & ch & Hn' & Hv' & Ho & Hgn & Hgv).
    + exists overlap, ch. by simplify_eq.
    + apply elem_of_assigned_pairs. by eauto.
  - intros (Hfit & Hrep & Hconf).
    rewrite (proj2 (allM_true _ _)); simpl.
    + by rewrite Hfit, bool_decide_eq_true_2.
    + intros [v n] (Hv & Hn & Hs)%elem_of_assigned_pairs.
      destruct Hv as [wv Hv]. destruct Hs as [wn Hwn].
      apply conflict_test_true.
      destruct (Hconf v n wv wn Hv Hn Hwn) as (overlap & ch & ? & ? & ?).
      by exists wn, wv, overlap, ch.
Qed.

(** ** [backtrack] and [solve] *)

Lemma is_consistent_empty c : is_consistent c ∅.
Proof.
  split_and!.
  - intros v w H. by rewrite lookup_empty in H.
  - intros v1 v2 w H. by rewrite lookup_empty in H.
  - intros v n wv wn H. by rewrite lookup_empty in H.
Qed.

Lemma backtrack_loop_sound c rec var (P : Assignment → Prop) :
  (∀ a1 r s, is_consistent c a1 → rec a1 = Ok (Some r, s) → P r) →
  ∀ values a r s,
    backtrack_loop c rec var values a = Ok (Some r, s) → P r.
Proof.
  intros Hrec. induction values as [|value rest IH]; intros a r s H;
    [discriminate|].
  simpl in H. inv_bind H. destruct a0.
  - apply consistent_true_iff in E. inv_bind H. destruct a0 as [result a2].
    destruct (truthy result).
    + injection H as -> ->. by eapply Hrec.
    + inv_bind H. by eapply IH.
  - by eapply IH.
Qed.

Lemma backtrack_sound c d fuel a r s :
  is_consistent c a →
  backtrack c d fuel a = Ok (Some r, s) →
  dom r = dom d ∧ is_consistent c r.
Proof.
  revert a r s. induction fuel as [|fuel IH]; intros a r s Ha H;
    [discriminate|].
  simpl in H. destruct (assignment_complete d a) eqn:Hcomplete.
  - injection H as <- <-. split; [|done].
    by apply bool_decide_eq_true in Hcomplete.
  - inv_bind H. inv_bind H.
    apply (backtrack_loop_sound c (backtrack c d fuel) a0
             (λ r, dom r = dom d ∧ is_consistent c r)) in H; [done|].
    intros b r1 s1 Hb H1. by eapply IH.
Qed.

Lemma solve_sound c fuel d a :
  solve c fuel d = Ok (Some a) → dom a = dom d ∧ is_consistent c a.
Proof.
  unfold solve. intros H. inv_bind H. destruct a0 as [r d2].
  inv_bind H. destruct a0 as [result s]. injection H as ->.
  apply backtrack_sound in E0 as [Hdom Hcons]; [|apply is_consistent_empty].
  split; [|done]. rewrite Hdom.
  rewrite (ac3_dom _ _ _ _ _ _ E). apply dom_enforce_node_consistency.
Qed.

(** C4.  Whenever [solve] returns an assignment, that assignment gives a
    word to every slot of the crossword, every word has the length of its
    slot, no word is used twice, and every two assigned neighbours carry the
    same letter where they cross. *)
Theorem solve_complete_and_consistent c fuel a :
  solve c fuel (init c) = Ok (Some a) →
  is_complete c a ∧ is_consistent c a.
Proof.
  intros H. apply solve_sound in H as [Hdom Hcons]. split; [|done].
  unfold is_complete. by rewrite Hdom, dom_init.
Qed.

(** ** Fuel *)

(** A call that has returned or raised within some fuel does the same with
    more. *)
Lemma ac3_loop_fuel c fuel n arcs d :
  ac3_loop c fuel arcs d ≠ OutOfFuel →
  ac3_loop c (fuel + n) arcs d = ac3_loop c fuel arcs d.
Proof.
  revert arcs d. induction fuel as [|fuel IH]; intros arcs d H; [done|].
  simpl in *. destruct (ac3_body c arcs d) as [[res|[arcs' d']]| |]; simpl in *;
    [done | by apply IH | done | done].
Qed.

Lemma backtrack_loop_fuel c rec rec' var values a :
  (∀ b, rec b ≠ OutOfFuel → rec' b = rec b) →
  backtrack_loop c rec var values a ≠ OutOfFuel →
  backtrack_loop c rec' var values a = backtrack_loop c rec var values a.
Proof.
  intros Hrec. revert a. induction values as [|value rest IH]; intros a H;
    [done|].
  simpl in *. destruct (consistent c (<[var:=value]> a)) as [[]| |]; simpl in *;
    [|by apply IH|done|done].
  destruct (rec (<[var:=value]> a)) as [[result a2]|e|] eqn:E; simpl in *;
    [| |done]; rewrite Hrec, E by congruence; simpl; [|done].
  destruct (truthy result); [done|].
  destruct (delitem a2 var); simpl in *; [by apply IH | done | done].
Qed.

Lemma backtrack_fuel c d fuel n a :
  backtrack c d fuel a ≠ OutOfFuel →
  backtrack c d (fuel + n) a = backtrack c d fuel a.
Proof.
  revert a. induction fuel as [|fuel IH]; intros a H; [done|].
  simpl in *. destruct (assignment_complete d a); [done|].
  destruct (select_unassigned_variable c d a) as [var| |]; simpl in *;
    [|done|done].
  destruct (order_domain_values c d var a) as [values| |]; simpl in *;
    [|done|done].
  apply backtrack_loop_fuel; [|done]. intros b. apply IH.
Qed.

Lemma solve_fuel c fuel n d :
  solve c fuel d ≠ OutOfFuel → solve c (fuel + n) d = solve c fuel d.
Proof.
  unfold solve, ac3. intros H.
  destruct (ac3_loop c fuel (all_arcs (enforce_node_consistency d))
              (enforce_node_consistency d)) as [[r d2]|e|] eqn:E;
    simpl in *; [| |done]; rewrite ac3_loop_fuel, E by congruence; simpl;
    [|done].
  destruct (backtrack c d2 fuel ∅) as [[result s]|e|] eqn:E'; simpl in *;
    [| |done]; by rewrite backtrack_fuel, E' by congruence.
Qed.

(** ** The work list of [ac3] *)

Lemma elem_of_foldl_cons (x : Var.t) (zs : list Var.t) (q : list Arc) e :
  e ∈ foldl (λ q z, (z, x) :: q) q zs ↔ e ∈ q ∨ ∃ z, z ∈ zs ∧ e = (z, x).
Proof.
  revert q. induction zs as [|z zs IH]; intros q; simpl.
  - split; [by left | intros [?|(z & ?%elem_of_nil & _)]; done].
  - rewrite IH, elem_of_cons. split.
    + intros [[->|?]|(z' & ? & ->)]; [right; exists z; split; [left|done]
                                     | by left
                                     | right; exists z'; split; [by right|done]].
    + intros [?|(z' & [->|?]%elem_of_cons & ->)];
        [left; by right | left; by left | right; by exists z'].
Qed.

Lemma pop_nonempty (arcs : list Arc) :
  arcs ≠ [] → ∃ a rest, pop arcs = Some (a, rest) ∧ a ∈ arcs ∧ rest ⊆ arcs.
Proof.
  intros Hne. unfold pop. destruct (reverse arcs) as [|a r] eqn:E.
  - destruct Hne. by rewrite <- (reverse_involutive arcs), E.
  - exists a, (reverse r).
    assert (arcs = (reverse r ++ [a])%list) as ->.
    { by rewrite <- (reverse_involutive arcs), E, reverse_cons. }
    split_and!; [done | set_solver | set_solver].
Qed.

(** When no arc of a set [S] makes [revise] change anything, every arc of
    [S] has a neighbour to enqueue, and the enqueued arcs stay in [S], the
    loop started on a non-empty part of [S] never reaches its end. *)
Lemma ac3_loop_spins c d (S : list Arc) :
  Forall (λ arc : Arc,
            revise c arc.1 arc.2 d = Ok (false, d) ∧
            filter (λ z, z ≠ arc.2) (neighbors c arc.1) ≠ [] ∧
            Forall (λ z, (z, arc.1) ∈ S)
                   (filter (λ z, z ≠ arc.2) (neighbors c arc.1))) S →
  ∀ fuel arcs, arcs ≠ [] → arcs ⊆ S → ac3_loop c fuel arcs d = OutOfFuel.
Proof.
  intros HS. induction fuel as [|fuel IH]; intros arcs Hne Hsub; [done|].
  destruct (pop_nonempty arcs Hne) as ([x y] & rest & Hpop & Hin & Hrest).
  rewrite Forall_forall in HS.
  destruct (HS (x, y) (Hsub _ Hin)) as (Hrev & Hnb & Hback). simpl in *.
  unfold ac3_body. rewrite Hpop, Hrev. simpl. apply IH.
  - unfold enqueue_neighbors.
    destruct (filter (λ z, z ≠ y) (neighbors c x)) as [|z zs]; [done|].
    intros Hnil.
    assert ((z, x) ∈ foldl (λ q z, (z, x) :: q) rest (z :: zs)) as Hz.
    { apply elem_of_foldl_cons. right. exists z. split; [left | done]. }
    rewrite Hnil in Hz. by apply elem_of_nil in Hz.
  - intros e [He|(z & Hz & ->)]%elem_of_foldl_cons.
    + by apply Hsub, Hrest.
    + rewrite Forall_forall in Hback. by apply Hback.
Qed.

Lemma ring_spins fuel : ac3_loop Ring.grid fuel Ring.arcs Ring.domains = OutOfFuel.
Proof.
  apply (ac3_loop_spins Ring.grid Ring.domains Ring.arcs); [|done|done].
  apply (bool_decide_unpack _). vm_compute. exact I.
Qed.

Lemma ring_filling_valid :
  is_complete Ring.grid Ring.filling ∧ is_consistent Ring.grid Ring.filling.
Proof.
  split.
  - unfold is_complete. apply (bool_decide_unpack _). vm_compute. exact I.
  - apply consistent_true_iff. vm_compute. reflexivity.
Qed.

(** C1.  On the ring grid [ac3] never returns: no [revise] changes a domain,
    yet every turn of the loop puts at least one arc back on the work list. *)
Theorem ac3_never_returns_on_ring fuel :
  ac3 Ring.grid fuel None Ring.domains = OutOfFuel.
Proof.
  unfold ac3.
  replace (all_arcs Ring.domains) with Ring.arcs by (vm_compute; reflexivity).
  apply ring_spins.
Qed.

(** A turn of the loop whose [revise] reports no change enqueues the arcs of
    the other neighbours all the same. *)
Lemma ac3_body_unrevised c arcs d x y rest :
  pop arcs = Some ((x, y), rest) →
  revise c x y d = Ok (false, d) →
  ac3_body c arcs d = Ok (inr (enqueue_neighbors c x y rest, d)).
Proof. intros Hpop Hrev. unfold ac3_body. by rewrite Hpop, Hrev. Qed.

(** C5.  The first turn of [ac3]'s loop on the ring grid takes the arc
    (left, right); [revise] reports no change, and the arcs from the two
    other neighbours of the left slot are put on the work list all the
    same. *)
Theorem ac3_enqueues_without_revision :
  pop Ring.arcs = Some ((Ring.left, Ring.right), Ring.rest) ∧
  revise Ring.grid Ring.left Ring.right Ring.domains = Ok (false, Ring.domains) ∧
  ac3_body Ring.grid Ring.arcs Ring.domains =
    Ok (inr ((Ring.bottom, Ring.left) :: (Ring.top, Ring.left) :: Ring.rest,
             Ring.domains)).
Proof. split_and!; vm_compute; reflexivity. Qed.

(** C2.  On the corner grid with the single word "AA", [solve] reaches
    [backtrack] with untouched domains and the empty assignment; the call
    answers [None] and leaves the across slot assigned. *)
Theorem backtrack_leaves_stale_entry :
  enforce_node_consistency (init (Corner.grid ["AA"])) = init (Corner.grid ["AA"]) ∧
  ac3 (Corner.grid ["AA"]) 3 None (init (Corner.grid ["AA"]))
    = Ok (true, init (Corner.grid ["AA"])) ∧
  ∀ n, backtrack (Corner.grid ["AA"]) (init (Corner.grid ["AA"])) (3 + n) ∅
       = Ok (None, {[ Corner.across := "AA" ]}).
Proof.
  split_and!; [vm_compute; reflexivity..|].
  intros n. rewrite backtrack_fuel; vm_compute; [reflexivity | discriminate].
Qed.

Lemma corner_filling_valid :
  is_complete (Corner.grid ["AA"; "BC"; "CB"; "DD"]) Corner.filling ∧
  is_consistent (Corner.grid ["AA"; "BC"; "CB"; "DD"]) Corner.filling.
Proof.
  split.
  - unfold is_complete. apply (bool_decide_unpack _). vm_compute. exact I.
  - apply consistent_true_iff. vm_compute. reflexivity.
Qed.

(** C3.  Two grids that have a filling and on which [solve] finds none.
    On the ring grid [solve] never returns, because [ac3] does not.  On the
    corner grid with the words "AA", "BC", "CB", "DD", each slot's domain
    iterated in that order, [solve] answers [None]: the entry left behind by
    the failed attempt on "AA" rules every later candidate out. *)
Theorem solve_misses_fillings :
  (is_complete Ring.grid Ring.filling ∧
   is_consistent Ring.grid Ring.filling ∧
   ∀ fuel, solve Ring.grid fuel (init Ring.grid) = OutOfFuel) ∧
  (is_complete (Corner.grid ["AA"; "BC"; "CB"; "DD"]) Corner.filling ∧
   is_consistent (Corner.grid ["AA"; "BC"; "CB"; "DD"]) Corner.filling ∧
   ∀ n, solve (Corner.grid ["AA"; "BC"; "CB"; "DD"]) (3 + n)
              (init (Corner.grid ["AA"; "BC"; "CB"; "DD"])) = Ok None).
Proof.
  split; split_and!;
    [apply ring_filling_valid | apply ring_filling_valid | |
     apply corner_filling_valid | apply corner_filling_valid | ].
  - intros fuel. unfold solve, ac3.
    change (enforce_node_consistency (init Ring.grid)) with Ring.domains.
    replace (all_arcs Ring.domains) with Ring.arcs by (vm_compute; reflexivity).
    by rewrite ring_spins.
  - intros n. rewrite solve_fuel; vm_compute; [reflexivity | discriminate].
Qed.

(** C6.  On the ring grid, with the top slot given the two-letter word "AH"
    and the right slot "ALA", the checker raises [IndexError]: the comparison
    at the crossing reads the third letter of "AH". *)
Theorem consistent_raises_on_short_word :
  ¬ fits_board Ring.short_top ∧
  consistent Ring.grid Ring.short_top = Raise IndexError.
Proof.
  split; [|vm_compute; reflexivity].
  intros H. specialize (H Ring.top "AH"). vm_compute in H.
  specialize (H eq_refl). discriminate.
Qed.

(** ** The theorems at work on the corner grid *)

Lemma revise_sound_witness :
  Corner.across ≠ Corner.down ∧
  revise (Corner.grid ["AB"; "BC"]) Corner.across Corner.down
         (init (Corner.grid ["AB"; "BC"])) = Ok (true, Corner.pruned) ∧
  (∀ w, w ∈ Corner.pruned !!! Corner.across ↔
        w ∈ init (Corner.grid ["AB"; "BC"]) !!! Corner.across ∧
        (overlaps (Corner.grid ["AB"; "BC"]) Corner.across Corner.down = None ∨
         ∃ overlap w' ch,
           overlaps (Corner.grid ["AB"; "BC"]) Corner.across Corner.down
             = Some overlap ∧
           w' ∈ init (Corner.grid ["AB"; "BC"]) !!! Corner.down ∧
           String.get (fst overlap) w = Some ch ∧
           String.get (snd overlap) w' = Some ch)) ∧
  (true = true ↔
   ¬ (∀ w, w ∈ Corner.pruned !!! Corner.across ↔
           w ∈ init (Corner.grid ["AB"; "BC"]) !!! Corner.across)).
Proof.
  split; [done|]. split; [vm_compute; reflexivity|].
  apply (revise_sound (Corner.grid ["AB"; "BC"]) Corner.across Corner.down
           (init (Corner.grid ["AB"; "BC"])) true Corner.pruned);
    [done | vm_compute; reflexivity].
Defined.

Lemma domains_only_shrink_witness :
  (revise (Corner.grid ["AB"; "BC"]) Corner.across Corner.down
          (init (Corner.grid ["AB"; "BC"])) = Ok (true, Corner.pruned) ∧
   ∀ v, Corner.pruned !!! v ⊆ init (Corner.grid ["AB"; "BC"]) !!! v) ∧
  (ac3 (Corner.grid ["AB"; "BC"]) 3 None (init (Corner.grid ["AB"; "BC"]))
     = Ok (true, Corner.arc_consistent) ∧
   ∀ v, Corner.arc_consistent !!! v ⊆ init (Corner.grid ["AB"; "BC"]) !!! v).
Proof.
  destruct (domains_only_shrink (Corner.grid ["AB"; "BC"]))
    as (_ & Hrevise & Hac3).
  split; (split; [vm_compute; reflexivity|]).
  - apply (Hrevise Corner.across Corner.down _ true). vm_compute. reflexivity.
  - apply (Hac3 3 None _ true). vm_compute. reflexivity.
Defined.

Lemma domains_keys_preserved_witness :
  (revise (Corner.grid ["AB"; "BC"]) Corner.across Corner.down
          (init (Corner.grid ["AB"; "BC"])) = Ok (true, Corner.pruned) ∧
   dom Corner.pruned = dom (init (Corner.grid ["AB"; "BC"]))) ∧
  (ac3 (Corner.grid ["AB"; "BC"]) 3 None (init (Corner.grid ["AB"; "BC"]))
     = Ok (true, Corner.arc_consistent) ∧
   dom Corner.arc_consistent = dom (init (Corner.grid ["AB"; "BC"]))).
Proof.
  destruct (domains_keys_preserved (Corner.grid ["AB"; "BC"]))
    as (_ & _ & Hrevise & Hac3).
  split; (split; [vm_compute; reflexivity|]).
  - apply (Hrevise Corner.across Corner.down _ true). vm_compute. reflexivity.
  - apply (Hac3 3 None _ true). vm_compute. reflexivity.
Defined.

Lemma solve_complete_and_consistent_witness :
  solve (Corner.grid ["BC"; "CB"]) 3 (init (Corner.grid ["BC"; "CB"]))
    = Ok (Some Corner.found) ∧
  is_complete (Corner.grid ["BC"; "CB"]) Corner.found ∧
  is_consistent (Corner.grid ["BC"; "CB"]) Corner.found.
Proof.
  split; [vm_compute; reflexivity|].
  apply (solve_complete_and_consistent (Corner.grid ["BC"; "CB"]) 3).
  vm_compute. reflexivity.
Defined.

(** ** Further properties: node consistency *)

(** X1.  [enforce_node_consistency] keeps, in each domain, exactly the words
    that have the length of the slot. *)
Theorem enforce_node_consistency_keeps d v w :
  w ∈ enforce_node_consistency d !!! v ↔
  w ∈ d !!! v ∧ String.length w = Var.length v.
Proof.
  rewrite !lookup_total_alt, lookup_enforce_node_consistency.
  destruct (d !! v) as [ws|]; simpl.
  - rewrite list_elem_of_filter. tauto.
  - split; [by intros ?%elem_of_nil | by intros [?%elem_of_nil _]].
Qed.

Lemma filter_idemp {A} (P : A → Prop) `{∀ x, Decision (P x)} (l : list A) :
  filter P (filter P l) = filter P l.
Proof.
  induction l as [|a l IH]; [done|].
  rewrite filter_cons. destruct (decide (P a)) as [Ha|Ha]; [|done].
  rewrite filter_cons, decide_True by done. by rewrite IH.
Qed.

(** X2.  [enforce_node_consistency] is idempotent: a second pass changes
    nothing. *)
Theorem enforce_node_consistency_idempotent d :
  enforce_node_consistency (enforce_node_consistency d)
  = enforce_node_consistency d.
Proof.
  apply map_eq. intros v. rewrite !lookup_enforce_node_consistency.
  destruct (d !! v) as [ws|]; simpl; [|done]. by rewrite filter_idemp.
Qed.

Lemma lookup_init c v :
  init c !! v = if decide (v ∈ variables c) then Some (words c) else None.
Proof.
  unfold init. induction (variables c) as [|u vars IH].
  - rewrite fmap_nil, list_to_map_nil, lookup_empty.
    destruct (decide (v ∈ [])) as [Hin|]; [by apply elem_of_nil in Hin | done].
  - rewrite fmap_cons, list_to_map_cons.
    destruct (decide (u = v)) as [->|Hne].
    + rewrite lookup_insert_eq.
      destruct (decide (v ∈ v :: vars)) as [|Hn]; [done|].
      destruct Hn. left.
    + rewrite lookup_insert_ne, IH by done.
      destruct (decide (v ∈ vars)) as [Hin|Hin];
        destruct (decide (v ∈ u :: vars)) as [Hin'|Hin']; try done.
      * destruct Hin'. by right.
      * apply elem_of_cons in Hin' as [->|?]; done.
Qed.

(** X3.  After [__init__] and [enforce_node_consistency], the domain of a
    slot of the crossword is the set of vocabulary words of the slot's
    length, and nothing else has a domain. *)
Theorem initial_domains c v w :
  w ∈ enforce_node_consistency (init c) !!! v ↔
  v ∈ variables c ∧ w ∈ words c ∧ String.length w = Var.length v.
Proof.
  rewrite !lookup_total_alt, lookup_enforce_node_consistency, lookup_init.
  destruct (decide (v ∈ variables c)); simpl.
  - rewrite list_elem_of_filter. tauto.
  - split; [by intros ?%elem_of_nil | tauto].
Qed.
(** ** Further properties: [revise] and [ac3] *)

Lemma filterM_all_true {A} (p : A → outcome bool) l :
  (∀ a, a ∈ l → p a = Ok true) → filterM p l = Ok l.
Proof.
  induction l as [|a l IH]; intros H; [done|].
  simpl. rewrite (H a) by left. simpl.
  rewrite IH; [done|]. intros a' ?. apply H. by right.
Qed.

Lemma set_eqb_refl l : set_eqb l l = true.
Proof. by apply set_eqb_spec. Qed.

Lemma supported_ext d d' y overlap w :
  d' !! y = d !! y → supported d' y overlap w = supported d y overlap w.
Proof. intros H. unfold supported, getitem. by rewrite H. Qed.

(** Words kept and words dropped by a [revise] that returns. *)
Lemma revise_keeps c x y d r d' w :
  revise c x y d = Ok (r, d') →
  w ∈ d' !!! x ↔
  w ∈ d !!! x ∧
  (overlaps c x y = None ∨
   ∃ overlap w' ch,
     overlaps c x y = Some overlap ∧ w' ∈ d !!! y ∧
     String.get (fst overlap) w = Some ch ∧
     String.get (snd overlap) w' = Some ch).
Proof.
  intros H.
  apply revise_Ok_inv in H
    as [(Hno & -> & ->)|(overlap & dx & valid & Ho & Hx & Hf & Hcase)].
  { split; [intros ?; split; [done | by left] | by intros [? _]]. }
  destruct (filterM_Ok _ _ _ Hf) as [Hvalid Hdef].
  assert (Hkeep : w ∈ valid ↔
            w ∈ d !!! x ∧
            (overlaps c x y = None ∨
             ∃ overlap w' ch,
               overlaps c x y = Some overlap ∧ w' ∈ d !!! y ∧
               String.get (fst overlap) w = Some ch ∧
               String.get (snd overlap) w' = Some ch)).
  { rewrite Hvalid, (lookup_total_alt d x), Hx. simpl. split.
    - intros [Hin Hs]. split; [done|]. right.
      apply supported_true in Hs as (w' & ch & ? & ? & ?).
      by exists overlap, w', ch.
    - intros [Hin [Hno|(o & w' & ch & Ho' & Hin' & Hgx & Hgy)]]; [congruence|].
      split; [done|]. rewrite Ho in Ho'. injection Ho' as <-.
      destruct (Hdef w Hin) as [[] Hb]; [done|].
      destruct (supported_false _ _ _ _ Hb w' ch Hin' Hgx Hgy). }
  destruct Hcase as [(Heq & -> & ->)|(Hne & -> & ->)].
  - pose proof (proj1 (set_eqb_spec _ _) Heq w) as Hsame.
    rewrite <- Hkeep, <- Hsame, lookup_total_alt, Hx. done.
  - by rewrite lookup_total_insert_eq.
Qed.

Lemma revise_other c x y d r d' v :
  revise c x y d = Ok (r, d') → v ≠ x → d' !! v = d !! v.
Proof.
  intros H Hne. apply revise_Ok_inv in H
    as [(_ & _ & ->)|(o & dx & valid & _ & _ & _ & [(_ & _ & ->)|(_ & _ & ->)])];
    [done..|].
  by rewrite lookup_insert_ne.
Qed.

(** X4.  [revise] is idempotent: once [revise(x, y)] has returned, calling
    it again on the same two distinct slots reports no revision and leaves
    the store as it is. *)
Theorem revise_idempotent c x y d r d' :
  x ≠ y →
  revise c x y d = Ok (r, d') →
  revise c x y d' = Ok (false, d').
Proof.
  intros Hxy H. pose proof H as H0.
  apply revise_Ok_inv in H
    as [(Hno & -> & ->)|(overlap & dx & valid & Ho & Hx & Hf & Hcase)];
    [done|].
  destruct Hcase as [(Heq & -> & ->)|(Hne & -> & ->)]; [done|].
  rewrite revise_unfold, Ho.
  assert (getitem (<[x:=valid]> d) x = Ok valid) as Hget.
  { apply getitem_Ok. by rewrite lookup_insert_eq. }
  rewrite Hget. cbn [mbind outcome_bind].
  rewrite filterM_all_true.
  - cbn [mbind outcome_bind]. by rewrite set_eqb_refl.
  - intros w Hw. rewrite (supported_ext d) by (by rewrite lookup_insert_ne).
    by apply (filterM_Ok _ _ _ Hf) in Hw as [_ ?].
Qed.

Lemma revise_returns_when_node_consistent_aux c x y d :
  offsets_in_slots c → node_consistent d →
  is_Some (d !! x) → is_Some (d !! y) →
  ∃ r d', revise c x y d = Ok (r, d').
Proof.
  intros Hoff Hnode Hx Hy. apply revise_returns; [done..|].
  intros overlap Ho. destruct (Hoff x y overlap Ho) as [H1 H2].
  split; intros w Hw; rewrite (Hnode _ _ Hw); done.
Qed.

(** X5.  [revise(x, y)] returns, with a result and a store, whenever [x]
    and [y] are two distinct slots of the crossword that have a domain, the
    domains are node consistent and the crossing offsets lie inside the
    slots: no [IndexError], no [KeyError]. *)
Theorem revise_returns_when_node_consistent c x y d :
  x ∈ variables c → y ∈ variables c → x ≠ y →
  offsets_in_slots c → node_consistent d →
  is_Some (d !! x) → is_Some (d !! y) →
  ∃ r d', revise c x y d = Ok (r, d').
Proof. intros _ _ _. apply revise_returns_when_node_consistent_aux. Qed.

Lemma ac3_body_false c arcs d d' :
  ac3_body c arcs d = Ok (inl (false, d')) → ∃ x, d' !! x = Some [].
Proof.
  unfold ac3_body. destruct (pop arcs) as [[[x y] rest]|]; [|discriminate].
  intros H. inv_bind H. destruct a as [revised d1]. inv_bind H.
  destruct a; [|discriminate]. injection H as <-.
  destruct revised; [|discriminate]. inv_bind E0.
  injection E0 as Hempty. apply bool_decide_eq_true in Hempty as ->.
  exists x. by apply getitem_Ok.
Qed.

(** X6.  When [ac3] returns [False], the store it leaves holds an empty
    domain. *)
Theorem ac3_false_leaves_empty_domain c fuel arcs d d' :
  ac3 c fuel arcs d = Ok (false, d') → ∃ x, d' !! x = Some [].
Proof.
  unfold ac3.
  generalize (match arcs with None | Some [] => all_arcs d | Some l => l end).
  intros q. revert q d. induction fuel as [|fuel IH]; intros q d H;
    [discriminate|].
  simpl in H. inv_bind H. destruct a as [[b d1]|[q1 d1]].
  - injection H as -> ->. by eapply ac3_body_false.
  - by eapply IH.
Qed.

Lemma pop_None (arcs : list Arc) : pop arcs = None → arcs = [].
Proof.
  unfold pop. destruct (reverse arcs) as [|a r] eqn:E; [|discriminate].
  intros _. by rewrite <- (reverse_involutive arcs), E.
Qed.

Lemma pop_Some (arcs : list Arc) a rest :
  pop arcs = Some (a, rest) → arcs = (rest ++ [a])%list.
Proof.
  unfold pop. destruct (reverse arcs) as [|a' r] eqn:E; [discriminate|].
  intros [= -> <-]. by rewrite <- (reverse_involutive arcs), E, reverse_cons.
Qed.

Lemma elem_of_keys (d : Domains) v : v ∈ (map_to_list d).*1 ↔ v ∈ dom d.
Proof.
  rewrite elem_of_dom, list_elem_of_fmap. split.
  - intros ([v' ws] & -> & H%elem_of_map_to_list). by exists ws.
  - intros [ws H]. exists (v, ws). split; [done|]. by apply elem_of_map_to_list.
Qed.

Lemma elem_of_all_arcs d x y :
  (x, y) ∈ all_arcs d ↔ x ∈ dom d ∧ y ∈ dom d ∧ x ≠ y.
Proof.
  unfold all_arcs. rewrite list_elem_of_bind. split.
  - intros (x' & Hin & Hx'). apply list_elem_of_bind in Hin as (y' & Hin & Hy').
    destruct (decide (x' ≠ y')); [|by apply elem_of_nil in Hin].
    apply list_elem_of_singleton in Hin as [= -> ->].
    by rewrite <- !elem_of_keys.
  - intros (Hx & Hy & Hne). exists x. rewrite elem_of_keys. split; [|done].
    apply list_elem_of_bind. exists y. rewrite elem_of_keys. split; [|done].
    rewrite decide_True by done. by apply list_elem_of_singleton.
Qed.

Lemma elem_of_enqueue_neighbors c x y q e :
  e ∈ enqueue_neighbors c x y q ↔
  e ∈ q ∨ ∃ z, z ∈ neighbors c x ∧ z ≠ y ∧ e = (z, x).
Proof.
  unfold enqueue_neighbors. rewrite elem_of_foldl_cons. split.
  - intros [?|(z & [? ?]%list_elem_of_filter & ->)]; [by left|].
    right. by exists z.
  - intros [?|(z & ? & ? & ->)]; [by left|].
    right. exists z. split; [|done]. by apply list_elem_of_filter.
Qed.

Lemma revise_node_consistent c x y d r d' :
  node_consistent d → revise c x y d = Ok (r, d') → node_consistent d'.
Proof.
  intros Hnode H v w Hw. apply Hnode. by eapply revise_subseteq.
Qed.

Lemma ac3_loop_never_raises c :
  coherent c → offsets_in_slots c →
  ∀ fuel arcs d e,
    node_consistent d →
    (∀ v, v ∈ variables c → v ∈ dom d) →
    (∀ a b, (a, b) ∈ arcs → a ∈ dom d ∧ b ∈ dom d) →
    ac3_loop c fuel arcs d ≠ Raise e.
Proof.
  intros [_ Hnb] Hoff.
  induction fuel as [|fuel IH]; intros arcs d e Hnode Hvars Harcs; [done|].
  simpl. unfold ac3_body.
  destruct (pop arcs) as [[[x y] rest]|] eqn:Hpop; [|done].
  apply pop_Some in Hpop as ->.
  destruct (Harcs x y) as [Hx Hy];
    [apply elem_of_app; right; by apply list_elem_of_singleton|].
  destruct (revise_returns_when_node_consistent_aux c x y d) as (r & d1 & Hr);
    [done | done | by apply elem_of_dom | by apply elem_of_dom |].
  rewrite Hr. cbn [mbind outcome_bind].
  pose proof (revise_dom _ _ _ _ _ _ Hr) as Hdom.
  assert (∃ b, (if r then dx ← getitem d1 x; Ok (bool_decide (dx = []))
                else Ok false) = Ok b) as [b ->].
  { destruct r; [|eauto].
    assert (is_Some (d1 !! x)) as [dx Hdx].
    { apply elem_of_dom. by rewrite Hdom. }
    apply getitem_Ok in Hdx. rewrite Hdx. simpl. eauto. }
  cbn [mbind outcome_bind]. destruct b; [done|]. simpl.
  apply IH.
  - by eapply revise_node_consistent.
  - intros v Hv. rewrite Hdom. by apply Hvars.
  - intros a b' [Hin|(z & Hz & _ & [= -> ->])]%elem_of_enqueue_neighbors.
    + rewrite Hdom. apply Harcs. apply elem_of_app. by left.
    + rewrite Hdom. split; [|done]. apply Hvars. by apply Hnb in Hz as [? _].
Qed.

(** X7.  [ac3] never raises on a coherent grid whose offsets lie inside the
    slots, once the store holds a node-consistent domain for each slot of
    the crossword and for nothing else, and the arcs it is given (if any)
    join distinct slots of the crossword: it returns or runs on. *)
Theorem ac3_never_raises c fuel arcs d e :
  coherent c → offsets_in_slots c →
  node_consistent d →
  (∀ v, v ∈ dom d ↔ v ∈ variables c) →
  (∀ l a b, arcs = Some l → (a, b) ∈ l →
            a ≠ b ∧ a ∈ variables c ∧ b ∈ variables c) →
  ac3 c fuel arcs d ≠ Raise e.
Proof.
  intros Hco Hoff Hnode Hvars Harcs. unfold ac3.
  apply ac3_loop_never_raises; [done | done | done | apply Hvars |].
  intros a b Hin.
  assert (Hall : (a, b) ∈ all_arcs d → a ∈ dom d ∧ b ∈ dom d).
  { intros (? & ? & _)%elem_of_all_arcs. done. }
  destruct arcs as [[|p l]|]; [by apply Hall | | by apply Hall].
  destruct (Harcs (p :: l) a b eq_refl Hin) as (_ & Ha & Hb).
  split; by apply Hvars.
Qed.

(** The loop invariant of [ac3]: the arcs join distinct slots, and every
    pair of slots that is not on the work list is arc consistent. *)
Lemma ac3_body_invariant c arcs d arcs' d' :
  coherent c →
  (∀ v, v ∈ dom d → v ∈ variables c) →
  (∀ a b, (a, b) ∈ arcs → a ≠ b) →
  (∀ u v, u ∈ dom d → v ∈ dom d → u ≠ v → (u, v) ∉ arcs →
          arc_consistent c d u v) →
  ac3_body c arcs d = Ok (inr (arcs', d')) →
  dom d' = dom d ∧
  (∀ a b, (a, b) ∈ arcs' → a ≠ b) ∧
  (∀ u v, u ∈ dom d' → v ∈ dom d' → u ≠ v → (u, v) ∉ arcs' →
          arc_consistent c d' u v).
Proof.
  intros [Hsym Hnb] Hvars Hdistinct Hinv H. unfold ac3_body in H.
  destruct (pop arcs) as [[[x y] rest]|] eqn:Hpop; [|discriminate].
  apply pop_Some in Hpop as ->.
  inv_bind H. destruct a as [revised d1]. inv_bind H.
  destruct a; [discriminate|]. injection H as <- <-.
  assert (x ≠ y) as Hxy.
  { apply Hdistinct, elem_of_app. right. by apply list_elem_of_singleton. }
  pose proof (revise_dom _ _ _ _ _ _ E) as Hdom.
  split_and!; [done | |].
  - intros a b [Hin|(z & Hz & _ & [= -> ->])]%elem_of_enqueue_neighbors.
    + apply Hdistinct, elem_of_app. by left.
    + by apply Hnb in Hz as (_ & ? & _).
  - intros u v Hu Hv Huv Hnotin overlap w Ho Hw.
    rewrite Hdom in Hu, Hv.
    destruct (decide ((u, v) = (x, y))) as [[= -> ->]|Hne].
    { apply (revise_keeps _ _ _ _ _ _ w E) in Hw
        as [_ [Hno|(o & w' & ch & Ho' & Hw' & Hg & Hg')]]; [congruence|].
      rewrite Ho in Ho'. injection Ho' as <-. exists w', ch.
      split; [|done]. rewrite !lookup_total_alt in *.
      by rewrite (revise_other _ _ _ _ _ _ y E). }
    assert ((u, v) ∉ (rest ++ [(x, y)])%list) as Hold.
    { intros [Hin|Hin%list_elem_of_singleton]%elem_of_app; [|done].
      apply Hnotin, elem_of_enqueue_neighbors. by left. }
    pose proof (revise_subseteq _ _ _ _ _ _ u E _ Hw) as Hw0.
    destruct (Hinv u v Hu Hv Huv Hold overlap w Ho Hw0)
      as (w' & ch & Hw' & Hg & Hg').
    exists w', ch. split; [|done].
    destruct (decide (v = x)) as [->|Hvx].
    + destruct (decide (u = y)) as [->|Huy].
      * apply (revise_keeps _ _ _ _ _ _ w' E). split; [done|]. right.
        exists (snd overlap, fst overlap), w, ch.
        split; [by apply Hsym | done].
      * destruct Hnotin. apply elem_of_enqueue_neighbors. right.
        exists u. split_and!; [|done..]. apply Hnb.
        split_and!; [by apply Hvars | done | by exists overlap].
    + rewrite !lookup_total_alt in *.
      by rewrite (revise_other _ _ _ _ _ _ v E).
Qed.

Lemma ac3_loop_arc_consistent c :
  coherent c →
  ∀ fuel arcs d d',
    (∀ v, v ∈ dom d → v ∈ variables c) →
    (∀ a b, (a, b) ∈ arcs → a ≠ b) →
    (∀ u v, u ∈ dom d → v ∈ dom d → u ≠ v → (u, v) ∉ arcs →
            arc_consistent c d u v) →
    ac3_loop c fuel arcs d = Ok (true, d') →
    ∀ u v, u ∈ dom d' → v ∈ dom d' → u ≠ v → arc_consistent c d' u v.
Proof.
  intros Hco. induction fuel as [|fuel IH];
    intros arcs d d' Hvars Hdistinct Hinv H; [discriminate|].
  simpl in H. inv_bind H. destruct a as [[b d1]|[arcs1 d1]].
  - injection H as -> ->. unfold ac3_body in E.
    destruct (pop arcs) as [[[x y] rest]|] eqn:Hpop.
    + inv_bind E. destruct a as [revised d2]. inv_bind E.
      destruct a; discriminate.
    + injection E as <-. apply pop_None in Hpop as ->.
      intros u v Hu Hv Huv. apply Hinv; [done..|]. apply not_elem_of_nil.
  - destruct (ac3_body_invariant _ _ _ _ _ Hco Hvars Hdistinct Hinv E)
      as (Hdom & Hdistinct1 & Hinv1).
    apply (IH arcs1 d1); [|done..].
    intros v Hv. apply Hvars. by rewrite <- Hdom.
Qed.

(** C10.  [ac3] given an empty arc list behaves as [ac3] given no arc
    list: the empty list is not run as it stands but replaced by the list
    of all ordered pairs of distinct slots of the store, the loop runs on
    that list, and so a [True] result means the whole store has been made
    arc consistent. *)
Theorem ac3_empty_arcs_as_none c fuel d :
  ac3 c fuel (Some []) d = ac3 c fuel None d ∧
  ac3 c fuel (Some []) d = ac3_loop c fuel (all_arcs d) d ∧
  (∀ x y, (x, y) ∈ all_arcs d ↔ x ∈ dom d ∧ y ∈ dom d ∧ x ≠ y) ∧
  (∀ d', coherent c → (∀ v, v ∈ dom d → v ∈ variables c) →
         ac3 c fuel (Some []) d = Ok (true, d') →
         ∀ x y, x ∈ dom d' → y ∈ dom d' → x ≠ y → arc_consistent c d' x y).
Proof.
  split_and!; [reflexivity | reflexivity | apply elem_of_all_arcs |].
  intros d' Hco Hvars H.
  apply (ac3_loop_arc_consistent c Hco fuel (all_arcs d) d d');
    [done | | | exact H].
  - by intros a b (_ & _ & ?)%elem_of_all_arcs.
  - intros u v Hu Hv Huv Hnotin. destruct Hnotin. by apply elem_of_all_arcs.
Qed.

(** X8.  When [ac3], started without arcs on a coherent grid, returns
    [True], the store is arc consistent: every word of every domain agrees,
    at each crossing of its slot, with some word of the crossing slot's
    domain. *)
Theorem ac3_true_arc_consistent c fuel d d' :
  coherent c →
  (∀ v, v ∈ dom d → v ∈ variables c) →
  ac3 c fuel None d = Ok (true, d') →
  ∀ x y, x ∈ dom d' → y ∈ dom d' → x ≠ y → arc_consistent c d' x y.
Proof.
  intros Hco Hvars H. unfold ac3 in H.
  apply (ac3_loop_arc_consistent c Hco fuel (all_arcs d) d d'); [done | | | done].
  - by intros a b (_ & _ & ?)%elem_of_all_arcs.
  - intros u v Hu Hv Huv Hnotin. destruct Hnotin. by apply elem_of_all_arcs.
Qed.
(** ** Further properties: the checker and the two heuristics *)

Lemma allM_returns {A} (p : A → outcome bool) l :
  (∀ a, a ∈ l → ∃ b, p a = Ok b) → ∃ r, allM p l = Ok r.
Proof.
  induction l as [|a l IH]; simpl; intros H; [eauto|].
  destruct (H a) as [b ->]; [left|]. simpl.
  destruct b; [|eauto]. apply IH. intros a' ?. apply H. by right.
Qed.

Lemma consistent_returns_aux c a :
  coherent c → offsets_in_slots c → fits_board a →
  ∃ b, consistent c a = Ok b.
Proof.
  intros [_ Hnb] Hoff Hfit. unfold consistent.
  match goal with
  | |- context [allM ?p ?l] => destruct (allM_returns p l) as [r Hr]
  end.
  - intros [v n] (Hv & Hn & Hs)%elem_of_assigned_pairs.
    destruct Hv as [wv Hv]. destruct Hs as [wn Hwn].
    apply Hnb in Hn as (_ & _ & [overlap Ho]).
    destruct (Hoff _ _ _ Ho) as [H1 H2].
    rewrite <- (Hfit _ _ Hwn) in H1. rewrite <- (Hfit _ _ Hv) in H2.
    destruct (get_in_range _ _ H1) as [ch1 Hch1].
    destruct (get_in_range _ _ H2) as [ch2 Hch2].
    apply getitem_Ok in Hwn, Hv. apply str_index_Ok in Hch1, Hch2.
    rewrite Hwn, Ho. simpl. rewrite Hch1. simpl. rewrite Hv. simpl.
    rewrite Hch2. simpl. eauto.
  - rewrite Hr. simpl. eauto.
Qed.

(** X9.  On assignments to slots of the crossword, the checker answers
    [True] exactly when every word has the length of its slot, no word
    occurs twice, and every assigned slot carries, at each crossing with an
    assigned neighbour, the neighbour's letter. *)
Theorem consistent_accepts_exactly c a :
  (∀ v, v ∈ dom a → v ∈ variables c) →
  consistent c a = Ok true ↔ is_consistent c a.
Proof. intros _. apply consistent_true_iff. Qed.

(** X10.  On a coherent grid whose offsets lie inside the slots, the
    checker returns a boolean for every assignment that gives slots of the
    crossword words of the lengths of those slots, and the boolean says
    whether the assignment is consistent. *)
Theorem consistent_returns c a :
  coherent c → offsets_in_slots c →
  (∀ v, v ∈ dom a → v ∈ variables c) → fits_board a →
  ∃ b, consistent c a = Ok b ∧ (b = true ↔ is_consistent c a).
Proof.
  intros Hco Hoff _ Hfit.
  destruct (consistent_returns_aux c a Hco Hoff Hfit) as [b Hb].
  exists b. split; [done|]. rewrite <- consistent_true_iff, Hb.
  split; [by intros -> | by intros [= ->]].
Qed.

Lemma key_lt_spec k1 k2 : key_lt k1 k2 = true ↔ key_below k1 k2.
Proof.
  unfold key_lt, key_below.
  rewrite orb_true_iff, andb_true_iff, !Z.ltb_lt, Z.eqb_eq. done.
Qed.

Lemma foldl_max_spec {A} (key : A → Z * Z) (l : list A) (a : A) :
  let best := foldl (λ best x, if key_lt (key best) (key x) then x else best) a l in
  (best = a ∨ best ∈ l) ∧
  ¬ key_below (key best) (key a) ∧
  ∀ x, x ∈ l → ¬ key_below (key best) (key x).
Proof.
  revert a. induction l as [|x l IH]; intros a; simpl.
  - split_and!; [by left | unfold key_below; lia |].
    by intros x ?%elem_of_nil.
  - destruct (key_lt (key a) (key x)) eqn:Hlt.
    + apply key_lt_spec in Hlt. destruct (IH x) as (Hin & Hx & Hall).
      split_and!.
      * right. destruct Hin as [->|?]; [left | by right].
      * unfold key_below in *. lia.
      * intros y [->|?]%elem_of_cons; [done | by apply Hall].
    + assert (¬ key_below (key a) (key x)) as Hge.
      { rewrite <- key_lt_spec. by rewrite Hlt. }
      destruct (IH a) as (Hin & Ha & Hall). split_and!.
      * destruct Hin as [->|?]; [by left | right; by right].
      * done.
      * intros y [->|?]%elem_of_cons; [|by apply Hall].
        unfold key_below in *. lia.
Qed.

Lemma py_max_Ok {A} (key : A → Z * Z) (l : list A) best :
  py_max key l = Ok best →
  best ∈ l ∧ ∀ x, x ∈ l → ¬ key_below (key best) (key x).
Proof.
  destruct l as [|a l]; [discriminate|]. intros [= <-].
  destruct (foldl_max_spec key l a) as (Hin & Ha & Hall). split.
  - destruct Hin as [->|?]; [left | by right].
  - intros x [->|?]%elem_of_cons; [done | by apply Hall].
Qed.

Lemma select_unassigned_variable_Ok c d a v :
  select_unassigned_variable c d a = Ok v →
  ∃ ws, d !! v = Some ws ∧ a !! v = None ∧
    ∀ u wu, d !! u = Some wu → a !! u = None →
      (length ws ≤ length wu)%nat ∧
      (length ws = length wu →
       (length (neighbors c u) ≤ length (neighbors c v))%nat).
Proof.
  unfold select_unassigned_variable. intros H. inv_bind H.
  injection H as <-. apply py_max_Ok in E as [Hin Hmax].
  apply list_elem_of_fmap in Hin as ([v ws] & -> & Hin).
  apply list_elem_of_filter in Hin as [Hav Hin%elem_of_map_to_list].
  simpl in *. exists ws. split_and!; [done..|].
  intros u wu Hu Hau.
  specialize (Hmax (u, (- Z.of_nat (length wu),
                        Z.of_nat (length (neighbors c u)))%Z)).
  unfold key_below in Hmax. simpl in Hmax.
  assert (Hle : ¬ (- Z.of_nat (length ws) < - Z.of_nat (length wu) ∨
                   - Z.of_nat (length ws) = - Z.of_nat (length wu) ∧
                   Z.of_nat (length (neighbors c v))
                   < Z.of_nat (length (neighbors c u)))%Z).
  { apply Hmax. apply list_elem_of_fmap. exists (u, wu). split; [done|].
    apply list_elem_of_filter. split; [done|]. by apply elem_of_map_to_list. }
  lia.
Qed.

(** X11.  [select_unassigned_variable] returns a slot that has a domain and
    no word yet; no other such slot has a smaller domain, and none with a
    domain of the same size has more neighbours. *)
Theorem select_unassigned_variable_minimal c d a v :
  select_unassigned_variable c d a = Ok v →
  v ∈ dom d ∧ a !! v = None ∧
  ∀ u, u ∈ dom d → a !! u = None →
    (length (d !!! v) ≤ length (d !!! u))%nat ∧
    (length (d !!! v) = length (d !!! u) →
     (length (neighbors c u) ≤ length (neighbors c v))%nat).
Proof.
  intros (ws & Hv & Hav & Hmin)%select_unassigned_variable_Ok.
  split_and!; [by apply elem_of_dom | done |].
  intros u [wu Hu]%elem_of_dom Hau.
  rewrite !lookup_total_alt, Hv, Hu. simpl. by apply Hmin.
Qed.

Lemma select_unassigned_variable_raises c d a :
  (∀ v, v ∈ dom d → is_Some (a !! v)) →
  select_unassigned_variable c d a = Raise ValueError.
Proof.
  intros Hall. unfold select_unassigned_variable.
  destruct (filter (λ domain : Var.t * list string, a !! domain.1 = None)
                   (map_to_list d)) as [|[v ws] l] eqn:E; [done|].
  assert ((v, ws) ∈ filter (λ domain : Var.t * list string,
                              a !! domain.1 = None) (map_to_list d)) as Hin.
  { rewrite E. left. }
  apply list_elem_of_filter in Hin as [Hav Hin%elem_of_map_to_list].
  simpl in Hav. destruct (Hall v) as [w Hw]; [by apply elem_of_dom | congruence].
Qed.

(** X12.  On a store whose keys are slots of the crossword,
    [select_unassigned_variable] raises [ValueError] exactly when every slot
    of the store is assigned; it raises nothing else. *)
Theorem select_unassigned_variable_fails c d a :
  (∀ v, v ∈ dom d → v ∈ variables c) →
  (select_unassigned_variable c d a = Raise ValueError ↔
   ∀ v, v ∈ dom d → is_Some (a !! v)) ∧
  (∀ e, select_unassigned_variable c d a = Raise e → e = ValueError).
Proof.
  intros _.
  assert (Hcases : (∀ v, v ∈ dom d → is_Some (a !! v)) ∨
                   ∃ v, select_unassigned_variable c d a = Ok v).
  { unfold select_unassigned_variable.
    destruct (filter (λ domain : Var.t * list string, a !! domain.1 = None)
                     (map_to_list d)) as [|p l] eqn:E.
    - left. intros v [ws Hv]%elem_of_dom.
      destruct (a !! v) as [w|] eqn:Hav; [by exists w|].
      assert ((v, ws) ∈ filter (λ domain : Var.t * list string,
                                  a !! domain.1 = None) (map_to_list d)) as Hin.
      { apply list_elem_of_filter. split; [done|]. by apply elem_of_map_to_list. }
      rewrite E in Hin. by apply elem_of_nil in Hin.
    - right. simpl. eauto. }
  split.
  - split.
    + intros H. destruct Hcases as [?|[v Hv]]; [done | congruence].
    + apply select_unassigned_variable_raises.
  - intros e H. destruct Hcases as [Hall|[v Hv]]; [|congruence].
    rewrite select_unassigned_variable_raises in H by done. congruence.
Qed.
Lemma insert_by_key_perm x l : insert_by_key x l ≡ₚ x :: l.
Proof.
  induction l as [|y l IH]; simpl; [done|].
  destruct (x.2 <=? y.2)%nat; [done|]. rewrite IH. apply Permutation_swap.
Qed.

Lemma sorted_by_key_perm l : sorted_by_key l ≡ₚ l.
Proof.
  induction l as [|x l IH]; simpl; [done|].
  fold (sorted_by_key l). by rewrite insert_by_key_perm, IH.
Qed.

Lemma insert_by_key_sorted x l :
  StronglySorted (λ p q : string * nat, (p.2 ≤ q.2)%nat) l →
  StronglySorted (λ p q : string * nat, (p.2 ≤ q.2)%nat) (insert_by_key x l).
Proof.
  induction 1 as [|y l Hs IH Hall]; simpl.
  - repeat constructor.
  - destruct (x.2 <=? y.2)%nat eqn:Hle.
    + apply Nat.leb_le in Hle. constructor; [by constructor|].
      constructor; [done|]. eapply Forall_impl; [exact Hall|].
      simpl. intros. lia.
    + apply Nat.leb_gt in Hle. constructor; [done|].
      rewrite insert_by_key_perm. constructor; [lia | done].
Qed.

Lemma sorted_by_key_sorted l :
  StronglySorted (λ p q : string * nat, (p.2 ≤ q.2)%nat) (sorted_by_key l).
Proof.
  induction l as [|x l IH]; simpl; [constructor|].
  by apply insert_by_key_sorted.
Qed.

Lemma mapM_with_key {A B} (f : A → outcome B) (l : list A) r :
  mapM (λ a, b ← f a; Ok (a, b)) l = Ok r →
  r.*1 = l ∧ Forall (λ p, f p.1 = Ok p.2) r.
Proof.
  revert r. induction l as [|a l IH]; intros r H.
  - injection H as <-. by split.
  - simpl in H. destruct (f a) as [b| |] eqn:Hfa; [|discriminate..].
    simpl in H. inv_bind H. injection H as <-.
    match goal with
    | Hm : mapM _ l = Ok ?r' |- _ => destruct (IH r' Hm) as [<- Hall]
    end.
    split; [done|]. by constructor.
Qed.

Lemma mapM_of_pairs {A B} (f : A → outcome B) (r : list (A * B)) :
  Forall (λ p, f p.1 = Ok p.2) r → mapM f r.*1 = Ok r.*2.
Proof.
  induction 1 as [|p r Hp _ IH]; [done|].
  rewrite !fmap_cons. cbn [mapM]. rewrite Hp. cbn [mbind outcome_bind].
  rewrite IH. done.
Qed.

Lemma StronglySorted_snd (r : list (string * nat)) :
  StronglySorted (λ p q : string * nat, (p.2 ≤ q.2)%nat) r →
  StronglySorted le r.*2.
Proof.
  induction 1 as [|p r _ IH Hall]; [constructor|].
  rewrite fmap_cons. constructor; [done|]. by apply Forall_fmap.
Qed.

Lemma order_domain_values_Ok c d var a l :
  order_domain_values c d var a = Ok l →
  l ≡ₚ d !!! var ∧
  ∃ ns, mapM (rule_out c d var a) l = Ok ns ∧ StronglySorted le ns.
Proof.
  unfold order_domain_values. intros H. inv_bind H. inv_bind H.
  injection H as <-. apply getitem_Ok in E.
  apply mapM_with_key in E0 as [Hfst Hall].
  rewrite lookup_total_alt, E. simpl. split.
  - by rewrite sorted_by_key_perm, Hfst.
  - exists (sorted_by_key a1).*2. split.
    + apply mapM_of_pairs. by rewrite sorted_by_key_perm.
    + apply StronglySorted_snd, sorted_by_key_sorted.
Qed.

(** X13.  [order_domain_values] returns the words of the slot's domain, each
    once, ordered by the number of words they rule out in the domains of the
    unassigned neighbours, fewest first. *)
Theorem order_domain_values_sorted c d var a l :
  order_domain_values c d var a = Ok l →
  l ≡ₚ d !!! var ∧
  ∃ ns, mapM (rule_out c d var a) l = Ok ns ∧ StronglySorted le ns.
Proof. apply order_domain_values_Ok. Qed.

(** ** Further properties: [backtrack] *)

Lemma backtrack_loop_frame c d rec var values a0 :
  (∀ b res s, rec b = Ok (res, s) →
     b ⊆ s ∧ drawn_from d b s ∧ ∀ r, res = Some r → r = s) →
  a0 !! var = None →
  (∀ value, value ∈ values → value ∈ d !!! var) →
  ∀ b res s,
    a0 ⊆ b → drawn_from d a0 b →
    backtrack_loop c rec var values b = Ok (res, s) →
    a0 ⊆ s ∧ drawn_from d a0 s ∧ ∀ r, res = Some r → r = s.
Proof.
  intros Hrec Hvar. induction values as [|value rest IH];
    intros Hvalues b res s Hsub Hdrawn H.
  { injection H as <- <-. by split_and!. }
  simpl in H.
  assert (a0 ⊆ <[var:=value]> b) as Hsub1 by (by apply insert_subseteq_r).
  assert (drawn_from d a0 (<[var:=value]> b)) as Hdrawn1.
  { intros v w. destruct (decide (var = v)) as [<-|Hne].
    - rewrite lookup_insert_eq. intros [= <-]. right. apply Hvalues. left.
    - rewrite lookup_insert_ne by done. apply Hdrawn. }
  assert (∀ value', value' ∈ rest → value' ∈ d !!! var) as Hrest.
  { intros value' ?. apply Hvalues. by right. }
  inv_bind H. destruct a; [|by apply (IH Hrest) in H].
  inv_bind H. destruct a as [result a2].
  destruct (Hrec _ _ _ E0) as (Hsub2 & Hdrawn2 & Hres).
  assert (a0 ⊆ a2) as Hsub02 by (by etrans).
  assert (drawn_from d a0 a2) as Hdrawn02.
  { intros v w Hv. destruct (Hdrawn2 v w Hv) as [?|?]; [by apply Hdrawn1 | by right]. }
  destruct (truthy result).
  - injection H as <- <-. by split_and!.
  - inv_bind H. unfold delitem in E1.
    destruct (a2 !! var); [|discriminate]. injection E1 as <-.
    apply (IH Hrest) in H; [done | |].
    + apply map_subseteq_spec. intros v w Hv.
      rewrite lookup_delete_ne by congruence.
      by apply (proj1 (map_subseteq_spec a0 a2) Hsub02).
    + intros v w Hv. apply lookup_delete_Some in Hv as [_ Hv].
      by apply Hdrawn02.
Qed.

Lemma order_domain_values_elem_of c d var a l value :
  order_domain_values c d var a = Ok l → value ∈ l → value ∈ d !!! var.
Proof.
  intros [Hperm _]%order_domain_values_Ok Hin. by rewrite <- Hperm.
Qed.

Lemma backtrack_frame c d fuel a res s :
  backtrack c d fuel a = Ok (res, s) →
  a ⊆ s ∧ drawn_from d a s ∧ ∀ r, res = Some r → r = s.
Proof.
  revert a res s. induction fuel as [|fuel IH]; intros a res s H;
    [discriminate|].
  simpl in H. destruct (assignment_complete d a).
  - injection H as <- <-. split_and!; [done | | by intros r [= <-]].
    intros v w ?. by left.
  - inv_bind H. inv_bind H.
    apply select_unassigned_variable_Ok in E as (ws & _ & Hvar & _).
    apply (backtrack_loop_frame c d (backtrack c d fuel) a0 a1 a) in H;
      [done | apply IH | done | | done |].
    + intros value. by apply (order_domain_values_elem_of c d a0 a).
    + intros v w ?. by left.
Qed.

(** X14.  Whatever [backtrack] returns, the dict it leaves still holds every
    entry it was given, each entry it has added gives a slot a word of that
    slot's domain, and a returned assignment is that very dict. *)
Theorem backtrack_keeps_entries c d fuel a res s :
  backtrack c d fuel a = Ok (res, s) →
  (∀ v w, a !! v = Some w → s !! v = Some w) ∧
  (∀ v w, s !! v = Some w → a !! v = Some w ∨ w ∈ d !!! v) ∧
  (∀ r, res = Some r → r = s).
Proof.
  intros (Hsub & Hdrawn & Hres)%backtrack_frame. split_and!; [|done..].
  by apply map_subseteq_spec.
Qed.

(** The calls that have no loop of their own never run out of fuel. *)
Lemma bind_no_fuel {A B} (m : outcome A) (f : A → outcome B) :
  m ≠ OutOfFuel → (∀ a, f a ≠ OutOfFuel) → m ≫= f ≠ OutOfFuel.
Proof. destruct m; simpl; [intros _ H; apply H | done | done]. Qed.

Lemma allM_no_fuel {A} (p : A → outcome bool) l :
  (∀ a, p a ≠ OutOfFuel) → allM p l ≠ OutOfFuel.
Proof.
  intros Hp. induction l as [|a l IH]; simpl; [done|].
  apply bind_no_fuel; [done|]. by intros [].
Qed.

Lemma countM_no_fuel {A} (p : A → outcome bool) l :
  (∀ a, p a ≠ OutOfFuel) → countM p l ≠ OutOfFuel.
Proof.
  intros Hp. induction l as [|a l IH]; simpl; [done|].
  apply bind_no_fuel; [done|]. intros b. by apply bind_no_fuel.
Qed.

Lemma mapM_no_fuel {A B} (f : A → outcome B) l :
  (∀ a, f a ≠ OutOfFuel) → mapM f l ≠ OutOfFuel.
Proof.
  intros Hf. induction l as [|a l IH]; simpl; [done|].
  apply bind_no_fuel; [done|]. intros b. by apply bind_no_fuel.
Qed.

Lemma getitem_no_fuel {V} (d : gmap Var.t V) k : getitem d k ≠ OutOfFuel.
Proof. unfold getitem. by destruct (d !! k). Qed.

Lemma str_index_no_fuel w k : str_index w k ≠ OutOfFuel.
Proof. unfold str_index. by destruct (String.get k w). Qed.

Lemma overlap_fst_no_fuel o : overlap_fst o ≠ OutOfFuel.
Proof. by destruct o. Qed.

Lemma overlap_snd_no_fuel o : overlap_snd o ≠ OutOfFuel.
Proof. by destruct o. Qed.

Ltac no_fuel :=
  repeat first
    [ apply getitem_no_fuel | apply str_index_no_fuel
    | apply overlap_fst_no_fuel | apply overlap_snd_no_fuel
    | apply allM_no_fuel; intros ? | apply countM_no_fuel; intros ?
    | apply mapM_no_fuel; intros ?
    | apply bind_no_fuel; [|intros ?]
    | done ].

Lemma consistent_no_fuel c a : consistent c a ≠ OutOfFuel.
Proof.
  unfold consistent. apply bind_no_fuel; [|done].
  apply allM_no_fuel. intros [word neighbour]. no_fuel.
Qed.

Lemma order_domain_values_no_fuel c d var a :
  order_domain_values c d var a ≠ OutOfFuel.
Proof. unfold order_domain_values, rule_out. no_fuel. Qed.

Lemma select_unassigned_variable_no_fuel c d a :
  select_unassigned_variable c d a ≠ OutOfFuel.
Proof.
  unfold select_unassigned_variable. apply bind_no_fuel; [|done].
  unfold py_max. by destruct (_ <$> _).
Qed.

Lemma unassigned_insert_lt (d : Domains) (a0 b : Assignment) var value :
  a0 ⊆ b → a0 !! var = None → var ∈ dom d →
  unassigned d (<[var:=value]> b) < unassigned d a0.
Proof.
  intros Hsub Hvar Hd. unfold unassigned. apply subset_size.
  apply subseteq_dom in Hsub. apply not_elem_of_dom in Hvar.
  rewrite dom_insert_L. split.
  - intros v [Hv Hn]%elem_of_difference. apply elem_of_difference.
    split; [done|]. intros Hin. apply Hn, elem_of_union. right. by apply Hsub.
  - intros Hsup. specialize (Hsup var). rewrite !elem_of_difference in Hsup.
    destruct Hsup as [_ Hn]; [done|]. apply Hn, elem_of_union. left.
    by apply elem_of_singleton.
Qed.

Lemma backtrack_loop_enough_fuel c d fuel var values a0 :
  (∀ b, unassigned d b < fuel → backtrack c d fuel b ≠ OutOfFuel) →
  a0 !! var = None → var ∈ dom d → unassigned d a0 < S fuel →
  ∀ b, a0 ⊆ b →
    backtrack_loop c (backtrack c d fuel) var values b ≠ OutOfFuel.
Proof.
  intros Hrec Hvar Hd Hfuel. induction values as [|value rest IH];
    intros b Hsub; [done|].
  simpl.
  assert (a0 ⊆ <[var:=value]> b) as Hsub1 by (by apply insert_subseteq_r).
  pose proof (consistent_no_fuel c (<[var:=value]> b)) as Hcons.
  destruct (consistent c (<[var:=value]> b)) as [[]| |]; simpl;
    [|by apply IH|done|done].
  pose proof (unassigned_insert_lt d a0 b var value Hsub Hvar Hd) as Hlt.
  destruct (backtrack c d fuel (<[var:=value]> b)) as [[result a2]| |] eqn:E;
    simpl; [|done|]; [|destruct (Hrec (<[var:=value]> b)); [lia | done]].
  destruct (truthy result); [done|].
  apply backtrack_frame in E as (Hsub2 & _ & _).
  unfold delitem. destruct (a2 !! var); simpl; [|done].
  apply IH. apply map_subseteq_spec. intros v w Hv.
  rewrite lookup_delete_ne by congruence.
  apply (proj1 (map_subseteq_spec a0 a2)); [by etrans | done].
Qed.

Lemma backtrack_enough_fuel c d fuel a :
  unassigned d a < fuel → backtrack c d fuel a ≠ OutOfFuel.
Proof.
  revert a. induction fuel as [|fuel IH]; intros a Hfuel; [lia|].
  simpl. destruct (assignment_complete d a); [done|].
  pose proof (select_unassigned_variable_no_fuel c d a) as Hsel.
  destruct (select_unassigned_variable c d a) as [var| |] eqn:E; simpl;
    [|done|done].
  apply select_unassigned_variable_Ok in E as (ws & Hd & Hvar & _).
  pose proof (order_domain_values_no_fuel c d var a) as Hord.
  destruct (order_domain_values c d var a) as [values| |]; simpl;
    [|done|done].
  apply (backtrack_loop_enough_fuel c d fuel var values a);
    [done | done | | done | done].
  by apply elem_of_dom.
Qed.

(** X15.  The recursion of [backtrack] is no deeper than the number of slots
    the assignment leaves open: with more fuel than that, the call returns
    or raises. *)
Theorem backtrack_depth_bounded c d fuel a :
  unassigned d a < fuel → backtrack c d fuel a ≠ OutOfFuel.
Proof. apply backtrack_enough_fuel. Qed.
Lemma countM_returns {A} (p : A → outcome bool) l :
  (∀ a, a ∈ l → ∃ b, p a = Ok b) → ∃ n, countM p l = Ok n.
Proof.
  induction l as [|a l IH]; simpl; intros H; [eauto|].
  destruct (H a) as [b ->]; [left|]. simpl.
  destruct IH as [n ->]; [intros a' ?; apply H; by right|].
  simpl. eauto.
Qed.

Lemma mapM_returns {A B} (f : A → outcome B) l :
  (∀ a, a ∈ l → ∃ b, f a = Ok b) → ∃ r, mapM f l = Ok r.
Proof.
  induction l as [|a l IH]; simpl; intros H; [eauto|].
  destruct (H a) as [b ->]; [left|]. simpl.
  destruct IH as [r ->]; [intros a' ?; apply H; by right|].
  simpl. eauto.
Qed.

Lemma node_consistent_enforce d : node_consistent (enforce_node_consistency d).
Proof.
  intros v w. rewrite lookup_total_alt, lookup_enforce_node_consistency.
  destruct (d !! v) as [ws|]; simpl; [|by intros ?%elem_of_nil].
  by intros [? _]%list_elem_of_filter.
Qed.

Lemma select_unassigned_variable_cases c d a :
  (∀ v, v ∈ dom d → is_Some (a !! v)) ∨
  ∃ v, select_unassigned_variable c d a = Ok v.
Proof.
  unfold select_unassigned_variable.
  destruct (filter (λ domain : Var.t * list string, a !! domain.1 = None)
                   (map_to_list d)) as [|p l] eqn:E.
  - left. intros v [ws Hv]%elem_of_dom.
    destruct (a !! v) as [w|] eqn:Hav; [by exists w|].
    assert ((v, ws) ∈ filter (λ domain : Var.t * list string,
                                a !! domain.1 = None) (map_to_list d)) as Hin.
    { apply list_elem_of_filter. split; [done|]. by apply elem_of_map_to_list. }
    rewrite E in Hin. by apply elem_of_nil in Hin.
  - right. simpl. eauto.
Qed.

Section Returns.
Context (c : Crossword) (d : Domains).
Hypothesis Hco : coherent c.
Hypothesis Hoff : offsets_in_slots c.
Hypothesis Hnode : node_consistent d.
Hypothesis Hvars : ∀ v, v ∈ variables c → v ∈ dom d.

Lemma rule_out_returns var a word :
  word ∈ d !!! var → ∃ n, rule_out c d var a word = Ok n.
Proof.
  intros Hword. unfold rule_out.
  match goal with
  | |- context [mapM ?f ?l] => destruct (mapM_returns f l) as [counts ->]
  end; [|simpl; eauto].
  intros n [_ Hn]%list_elem_of_filter.
  apply Hco in Hn as (Hnv & _ & [overlap Ho]).
  destruct (Hoff _ _ _ Ho) as [H1 H2].
  apply Hvars, elem_of_dom in Hnv as [dn Hdn].
  rewrite (proj2 (getitem_Ok _ _ _) Hdn). cbn [mbind outcome_bind].
  apply countM_returns. intros nw Hnw. rewrite Ho. simpl.
  assert (nw ∈ d !!! n) as Hnw' by (by rewrite lookup_total_alt, Hdn).
  rewrite <- (Hnode _ _ Hnw') in H1. rewrite <- (Hnode _ _ Hword) in H2.
  destruct (get_in_range _ _ H1) as [ch1 Hch1].
  destruct (get_in_range _ _ H2) as [ch2 Hch2].
  unfold str_index. rewrite Hch1, Hch2. simpl. eauto.
Qed.

Lemma order_domain_values_returns var a :
  var ∈ dom d → ∃ values, order_domain_values c d var a = Ok values.
Proof.
  intros [ws Hws]%elem_of_dom. unfold order_domain_values.
  rewrite (proj2 (getitem_Ok _ _ _) Hws). cbn [mbind outcome_bind].
  match goal with
  | |- context [mapM ?f ?l] => destruct (mapM_returns f l) as [r ->]
  end; [|simpl; eauto].
  intros word Hword.
  destruct (rule_out_returns var a word) as [n ->]; [|simpl; eauto].
  by rewrite lookup_total_alt, Hws.
Qed.

Lemma fits_board_insert (b : Assignment) var value :
  fits_board b → value ∈ d !!! var → fits_board (<[var:=value]> b).
Proof.
  intros Hfit Hvalue v w. destruct (decide (var = v)) as [<-|Hne].
  - rewrite lookup_insert_eq. intros [= <-]. by apply Hnode.
  - rewrite lookup_insert_ne by done. apply Hfit.
Qed.

Lemma fits_board_drawn_from (a s : Assignment) :
  fits_board a → drawn_from d a s → fits_board s.
Proof.
  intros Hfit Hdrawn v w Hv.
  destruct (Hdrawn v w Hv) as [?|?]; [by eapply Hfit | by apply Hnode].
Qed.

Lemma dom_drawn_from (a s : Assignment) :
  dom a ⊆ dom d → drawn_from d a s → dom s ⊆ dom d.
Proof.
  intros Hdom Hdrawn v [w Hv]%elem_of_dom.
  destruct (Hdrawn v w Hv) as [Ha|Hw].
  - apply Hdom, elem_of_dom. by exists w.
  - apply elem_of_dom. rewrite lookup_total_alt in Hw.
    destruct (d !! v); [done | by apply elem_of_nil in Hw].
Qed.

Lemma backtrack_loop_never_raises fuel var values a0 e :
  (∀ b, fits_board b → dom b ⊆ dom d → backtrack c d fuel b ≠ Raise e) →
  a0 !! var = None → var ∈ dom d →
  (∀ value, value ∈ values → value ∈ d !!! var) →
  ∀ b, a0 ⊆ b → fits_board b → dom b ⊆ dom d →
    backtrack_loop c (backtrack c d fuel) var values b ≠ Raise e.
Proof.
  intros Hrec Hvar Hd. induction values as [|value rest IH];
    intros Hvalues b Hsub Hfit Hdom; [done|].
  simpl.
  assert (∀ value', value' ∈ rest → value' ∈ d !!! var) as Hrest.
  { intros value' ?. apply Hvalues. by right. }
  assert (a0 ⊆ <[var:=value]> b) as Hsub1 by (by apply insert_subseteq_r).
  assert (fits_board (<[var:=value]> b)) as Hfit1.
  { apply fits_board_insert; [done|]. apply Hvalues. left. }
  assert (dom (<[var:=value]> b) ⊆ dom d) as Hdom1.
  { rewrite dom_insert_L. intros v [->%elem_of_singleton|?]%elem_of_union;
      [done | by apply Hdom]. }
  destruct (consistent_returns_aux c _ Hco Hoff Hfit1) as [ok ->]. simpl.
  destruct ok; [|by apply IH].
  specialize (Hrec _ Hfit1 Hdom1).
  destruct (backtrack c d fuel (<[var:=value]> b)) as [[result a2]| |] eqn:E;
    simpl; [|done|done].
  destruct (truthy result); [done|].
  apply backtrack_frame in E as (Hsub2 & Hdrawn2 & _).
  assert (a2 !! var = Some value) as Hvar2.
  { apply (proj1 (map_subseteq_spec _ _) Hsub2). by rewrite lookup_insert_eq. }
  unfold delitem. rewrite Hvar2. simpl. apply IH; [done | | |].
  - apply map_subseteq_spec. intros v w Hv.
    rewrite lookup_delete_ne by congruence.
    apply (proj1 (map_subseteq_spec a0 a2)); [by etrans | done].
  - intros v w [_ Hv]%lookup_delete_Some.
    by apply (fits_board_drawn_from _ _ Hfit1 Hdrawn2 v w).
  - rewrite dom_delete_L. intros v [Hv _]%elem_of_difference.
    by apply (dom_drawn_from _ _ Hdom1 Hdrawn2).
Qed.

Lemma backtrack_never_raises_aux fuel a e :
  fits_board a → dom a ⊆ dom d → backtrack c d fuel a ≠ Raise e.
Proof.
  revert a. induction fuel as [|fuel IH]; intros a Hfit Hdom; [done|].
  simpl. destruct (assignment_complete d a) eqn:Hcomplete; [done|].
  apply bool_decide_eq_false in Hcomplete.
  destruct (select_unassigned_variable_cases c d a) as [Hall|[var Hsel]].
  { destruct Hcomplete. apply set_eq. intros v. split; [apply Hdom|].
    intros Hv. apply elem_of_dom. by apply Hall. }
  rewrite Hsel. simpl.
  apply select_unassigned_variable_Ok in Hsel as (ws & Hd & Hvar & _).
  assert (var ∈ dom d) as Hvd by (by apply elem_of_dom).
  destruct (order_domain_values_returns var a Hvd) as [values Hvalues].
  rewrite Hvalues. simpl.
  apply (backtrack_loop_never_raises fuel var values a);
    [intros b; apply IH | done | done | | done | done | done].
  intros value. by apply (order_domain_values_elem_of c d var a).
Qed.

End Returns.

(** X16.  On a coherent grid whose offsets lie inside the slots, with a
    store that holds a node-consistent domain for each slot of the crossword
    and for nothing else, [backtrack] returns, for every assignment of words
    of the right lengths to slots of the crossword and with more fuel than
    the assignment leaves slots open: it raises nothing. *)
Theorem backtrack_returns c d fuel a :
  coherent c → offsets_in_slots c → node_consistent d →
  dom d = list_to_set (variables c) →
  fits_board a → dom a ⊆ dom d →
  unassigned d a < fuel →
  ∃ res s, backtrack c d fuel a = Ok (res, s).
Proof.
  intros Hco Hoff Hnode Hkeys Hfit Hdom Hfuel.
  assert (Hvars : ∀ v, v ∈ variables c → v ∈ dom d).
  { intros v Hv. rewrite Hkeys. by apply elem_of_list_to_set. }
  pose proof (backtrack_enough_fuel c d fuel a Hfuel) as Hfuel'.
  destruct (backtrack c d fuel a) as [[res s]|e|] eqn:E; [eauto | | done].
  by destruct (backtrack_never_raises_aux c d Hco Hoff Hnode Hvars fuel a e).
Qed.

Lemma fits_board_empty : fits_board ∅.
Proof. intros v w H. by rewrite lookup_empty in H. Qed.

Lemma solve_backtrack_ready c fuel r d2 :
  ac3 c fuel None (enforce_node_consistency (init c)) = Ok (r, d2) →
  node_consistent d2 ∧ dom d2 = dom (init c).
Proof.
  intros H. split.
  - apply (ac3_preserves node_consistent c) with fuel None
      (enforce_node_consistency (init c)) r; [|apply node_consistent_enforce|done].
    intros x y d r1 d'. apply revise_node_consistent.
  - rewrite (ac3_dom _ _ _ _ _ _ H). apply dom_enforce_node_consistency.
Qed.

(** X17.  On a coherent grid whose offsets lie inside the slots, [solve]
    raises nothing: it returns or runs on. *)
Theorem solve_never_raises c fuel e :
  coherent c → offsets_in_slots c →
  solve c fuel (init c) ≠ Raise e.
Proof.
  intros Hco Hoff. unfold solve.
  assert (Hvars : ∀ v, v ∈ variables c → v ∈ dom (init c)).
  { intros v Hv. rewrite dom_init. by apply elem_of_list_to_set. }
  destruct (ac3 c fuel None (enforce_node_consistency (init c)))
    as [[r d2]|e'|] eqn:E; simpl; [| |done].
  - destruct (solve_backtrack_ready _ _ _ _ E) as [Hnode Hdom].
    assert (Hvars2 : ∀ v, v ∈ variables c → v ∈ dom d2).
    { intros v Hv. rewrite Hdom. by apply Hvars. }
    assert (Hempty : dom (∅ : Assignment) ⊆ dom d2).
    { rewrite dom_empty_L. apply empty_subseteq. }
    destruct (backtrack c d2 fuel ∅) as [[res s]|e''|] eqn:E'; simpl;
      [done | | done].
    by destruct (backtrack_never_raises_aux c d2 Hco Hoff Hnode Hvars2 fuel ∅ e''
                   fits_board_empty Hempty).
  - exfalso. revert E. unfold ac3. apply ac3_loop_never_raises; [done..| | |].
    + apply node_consistent_enforce.
    + intros v Hv. rewrite dom_enforce_node_consistency. by apply Hvars.
    + by intros a b (? & ? & _)%elem_of_all_arcs.
Qed.

(** X18.  On such a grid [solve] returns as soon as its [ac3] pass does and
    the fuel exceeds the number of slots. *)
Theorem solve_returns_after_ac3 c fuel r d2 :
  coherent c → offsets_in_slots c →
  ac3 c fuel None (enforce_node_consistency (init c)) = Ok (r, d2) →
  size (dom (init c)) < fuel →
  ∃ res, solve c fuel (init c) = Ok res.
Proof.
  intros Hco Hoff E Hfuel. unfold solve. rewrite E. simpl.
  destruct (solve_backtrack_ready _ _ _ _ E) as [Hnode Hdom].
  assert (Hvars : ∀ v, v ∈ variables c → v ∈ dom d2).
  { intros v Hv. rewrite Hdom, dom_init. by apply elem_of_list_to_set. }
  assert (Hempty : dom (∅ : Assignment) ⊆ dom d2).
  { rewrite dom_empty_L. apply empty_subseteq. }
  destruct (backtrack c d2 fuel ∅) as [[res s]|e|] eqn:E'; simpl; [eauto | |].
  - by destruct (backtrack_never_raises_aux c d2 Hco Hoff Hnode Hvars fuel ∅ e
                   fits_board_empty Hempty).
  - destruct (backtrack_enough_fuel c d2 fuel ∅); [|done].
    unfold unassigned. by rewrite dom_empty_L, difference_empty_L, Hdom.
Qed.

(** X19.  On a crossword without slots [solve] returns the empty
    assignment, not [None]. *)
Theorem solve_no_slots c fuel :
  variables c = [] → solve c (S fuel) (init c) = Ok (Some ∅).
Proof.
  intros Hvars. unfold solve, init. rewrite Hvars. reflexivity.
Qed.

(** ** Further properties: [letter_grid] *)

Lemma foldM_invariant {A S} (f : S → A → outcome S) (I : S → Prop) l s s' :
  (∀ s a s', a ∈ l → I s → f s a = Ok s' → I s') →
  I s → foldM f s l = Ok s' → I s'.
Proof.
  revert s. induction l as [|a l IH]; intros s Hstep Hs H.
  - by injection H as <-.
  - simpl in H. inv_bind H. apply (IH a0); [|by eapply Hstep; [left|..]|done].
    intros s1 b s2 Hb. apply Hstep. by right.
Qed.

Lemma foldM_returns {A S} (f : S → A → outcome S) (I : S → Prop) l s :
  (∀ s a, a ∈ l → I s → ∃ s', f s a = Ok s' ∧ I s') →
  I s → ∃ s', foldM f s l = Ok s' ∧ I s'.
Proof.
  revert s. induction l as [|a l IH]; intros s Hstep Hs; [by exists s|].
  simpl. destruct (Hstep s a) as (s1 & -> & Hs1); [left | done|]. simpl.
  apply IH; [|done]. intros s2 b Hb. apply Hstep. by right.
Qed.

Lemma foldM_establishes {A S} (f : S → A → outcome S) (Q : A → S → Prop) l s s' :
  (∀ s a s', f s a = Ok s' → Q a s') →
  (∀ s a s' b, f s a = Ok s' → Q b s → Q b s') →
  foldM f s l = Ok s' → ∀ a, a ∈ l → Q a s'.
Proof.
  intros Hest Hkeep. revert s. induction l as [|a l IH]; intros s H b Hb.
  - by apply elem_of_nil in Hb.
  - simpl in H. inv_bind H. apply elem_of_cons in Hb as [->|Hb].
    + apply (foldM_invariant f (Q a) l a0 s'); [|by eapply Hest|done].
      intros s1 b s2 _ HQ Hf. by eapply Hkeep.
    + by apply (IH a0).
Qed.

Lemma foldM_raises {A S} (f : S → A → outcome S) (I : S → Prop) e l s :
  (∀ s a, I s → (∃ s', f s a = Ok s' ∧ I s') ∨ f s a = Raise e) →
  (∃ a, a ∈ l ∧ ∀ s, I s → f s a = Raise e) →
  I s → foldM f s l = Raise e.
Proof.
  intros Hstep (b & Hb & Hbad). revert s. induction l as [|a l IH]; intros s Hs.
  - by apply elem_of_nil in Hb.
  - simpl. apply elem_of_cons in Hb as [->|Hb].
    + by rewrite Hbad.
    + destruct (Hstep s a Hs) as [(s1 & -> & Hs1)| ->]; [|done].
      simpl. by apply IH.
Qed.

Lemma set_letter_Ok letters i j ch letters' :
  set_letter letters i j ch = Ok letters' →
  ∃ row, letters !! i = Some row ∧ j < length row ∧
         letters' = <[i := <[j := Some ch]> row]> letters.
Proof.
  unfold set_letter. destruct (letters !! i) as [row|]; [|discriminate].
  destruct (decide (j < length row)); [|discriminate].
  intros [= <-]. by exists row.
Qed.

Lemma set_letter_size height width letters i j ch letters' :
  has_size height width letters →
  set_letter letters i j ch = Ok letters' →
  has_size height width letters'.
Proof.
  intros [Hh Hw] (row & Hrow & Hj & ->)%set_letter_Ok. split.
  - by rewrite length_insert.
  - intros r Hr. apply list_elem_of_lookup in Hr as [i' Hr].
    destruct (decide (i = i')) as [<-|Hne].
    + rewrite list_lookup_insert_eq in Hr by (by eapply lookup_lt_Some).
      injection Hr as <-. rewrite length_insert. apply Hw.
      by eapply list_elem_of_lookup_2.
    + rewrite list_lookup_insert_ne in Hr by done.
      apply Hw. by eapply list_elem_of_lookup_2.
Qed.

Lemma set_letter_at letters i j ch letters' cell :
  set_letter letters i j ch = Ok letters' →
  letter_at letters' cell =
  if decide (cell = (i, j)) then Some (Some ch) else letter_at letters cell.
Proof.
  intros (row & Hrow & Hj & ->)%set_letter_Ok. destruct cell as [i' j'].
  unfold letter_at. simpl. destruct (decide ((i', j') = (i, j))) as [[= -> ->]|Hne].
  - rewrite list_lookup_insert_eq by (by eapply lookup_lt_Some). simpl.
    by rewrite list_lookup_insert_eq.
  - destruct (decide (i = i')) as [<-|Hi].
    + rewrite list_lookup_insert_eq by (by eapply lookup_lt_Some). simpl.
      rewrite Hrow. simpl. rewrite list_lookup_insert_ne; [done | congruence].
    + by rewrite list_lookup_insert_ne.
Qed.

Lemma set_letter_in_bounds height width letters i j ch :
  has_size height width letters → i < height → j < width →
  ∃ letters', set_letter letters i j ch = Ok letters'.
Proof.
  intros [Hh Hw] Hi Hj. unfold set_letter.
  destruct (lookup_lt_is_Some_2 letters i) as [row Hrow]; [lia|].
  rewrite Hrow. rewrite decide_True; [eauto|].
  rewrite (Hw row); [done|]. by eapply list_elem_of_lookup_2.
Qed.

Lemma set_letter_out_of_bounds height width letters i j ch :
  has_size height width letters → ¬ (i < height ∧ j < width) →
  set_letter letters i j ch = Raise IndexError.
Proof.
  intros [Hh Hw] Hout. unfold set_letter.
  destruct (letters !! i) as [row|] eqn:Hrow; [|done].
  rewrite decide_False; [done|]. intros Hj. apply Hout.
  split; [rewrite <- Hh; by eapply lookup_lt_Some|].
  rewrite <- (Hw row); [done|]. by eapply list_elem_of_lookup_2.
Qed.

Lemma has_size_replicate height width :
  has_size height width (replicate height (replicate width None)).
Proof.
  split; [by rewrite length_replicate|].
  intros row [-> _]%elem_of_replicate. by rewrite length_replicate.
Qed.

Lemma letter_at_replicate height width cell ch :
  letter_at (replicate height (replicate width None)) cell ≠ Some (Some ch).
Proof.
  unfold letter_at. intros H.
  destruct (replicate height _ !! cell.1) as [row|] eqn:Hrow; [|done].
  apply lookup_replicate in Hrow as [-> _]. simpl in H.
  by apply lookup_replicate in H as [? _].
Qed.

Lemma letter_grid_unfold height width a :
  letter_grid height width a =
  foldM (λ letters '(variable, word), write_word variable word letters)
        (replicate height (replicate width None)) (map_to_list a).
Proof. reflexivity. Qed.

Lemma foldM_cases {A S} (f : S → A → outcome S) (I : S → Prop) e l s :
  (∀ s a, I s → (∃ s', f s a = Ok s' ∧ I s') ∨ f s a = Raise e) →
  I s → (∃ s', foldM f s l = Ok s' ∧ I s') ∨ foldM f s l = Raise e.
Proof.
  intros Hstep. revert s. induction l as [|a l IH]; intros s Hs.
  - left. by exists s.
  - simpl. destruct (Hstep s a Hs) as [(s1 & -> & Hs1)| ->]; [|by right].
    simpl. by apply IH.
Qed.

Lemma get_Some_lt k w ch : String.get k w = Some ch → k < String.length w.
Proof.
  revert k. induction w as [|c w IH]; simpl; intros k; [discriminate|].
  destruct k as [|k]; [lia|]. intros ?%IH. lia.
Qed.

Lemma write_step_cases height width variable word letters k :
  has_size height width letters →
  (∃ letters',
     (ch ← str_index word k;
      set_letter letters (cell_of variable k).1 (cell_of variable k).2 ch)
     = Ok letters' ∧ has_size height width letters') ∨
  (ch ← str_index word k;
   set_letter letters (cell_of variable k).1 (cell_of variable k).2 ch)
  = Raise IndexError.
Proof.
  intros Hsize. unfold str_index.
  destruct (String.get k word) as [ch|]; simpl; [|by right].
  destruct (decide ((cell_of variable k).1 < height ∧
                    (cell_of variable k).2 < width)) as [[Hi Hj]|Hout].
  - left. destruct (set_letter_in_bounds _ _ _ _ _ ch Hsize Hi Hj) as [g Hg].
    exists g. split; [done|]. by eapply set_letter_size.
  - right. by eapply set_letter_out_of_bounds.
Qed.

Lemma write_word_cases height width variable word letters :
  has_size height width letters →
  (∃ letters', write_word variable word letters = Ok letters' ∧
               has_size height width letters') ∨
  write_word variable word letters = Raise IndexError.
Proof.
  intros Hsize. unfold write_word.
  apply (foldM_cases _ (has_size height width)); [|done].
  intros s k. apply write_step_cases.
Qed.

Lemma write_word_raises height width variable word letters k :
  has_size height width letters →
  k < String.length word →
  ¬ ((cell_of variable k).1 < height ∧ (cell_of variable k).2 < width) →
  write_word variable word letters = Raise IndexError.
Proof.
  intros Hsize Hk Hout. unfold write_word.
  apply (foldM_raises _ (has_size height width)); [| |done].
  - intros s k'. apply write_step_cases.
  - exists k. split; [apply elem_of_seq; lia|]. intros s Hs.
    destruct (get_in_range _ _ Hk) as [ch Hch].
    unfold str_index. rewrite Hch. simpl. by eapply set_letter_out_of_bounds.
Qed.

Lemma write_word_in_bounds height width variable word letters :
  has_size height width letters →
  (∀ k, k < String.length word →
        (cell_of variable k).1 < height ∧ (cell_of variable k).2 < width) →
  ∃ letters', write_word variable word letters = Ok letters' ∧
              has_size height width letters'.
Proof.
  intros Hsize Hin. unfold write_word.
  apply (foldM_returns _ (has_size height width)); [|done].
  intros s k [_ Hk]%elem_of_seq Hs. simpl in Hk.
  destruct (get_in_range k word) as [ch Hch]; [lia|].
  unfold str_index. rewrite Hch. simpl.
  destruct (Hin k) as [Hi Hj]; [lia|].
  destruct (set_letter_in_bounds _ _ _ _ _ ch Hs Hi Hj) as [g Hg].
  exists g. split; [done|]. by eapply set_letter_size.
Qed.

Lemma write_step_at variable word letters k letters' :
  (ch ← str_index word k;
   set_letter letters (cell_of variable k).1 (cell_of variable k).2 ch)
  = Ok letters' →
  ∃ ch, String.get k word = Some ch ∧
        ∀ cell, letter_at letters' cell =
                if decide (cell = cell_of variable k) then Some (Some ch)
                else letter_at letters cell.
Proof.
  intros H. inv_bind H. apply str_index_Ok in E. exists a. split; [done|].
  intros cell. rewrite (set_letter_at _ _ _ _ _ cell H).
  by destruct (cell_of variable k).
Qed.

Lemma write_word_source variable word letters letters' cell ch :
  write_word variable word letters = Ok letters' →
  letter_at letters' cell = Some (Some ch) →
  letter_at letters cell = Some (Some ch) ∨
  ∃ k, cell_of variable k = cell ∧ String.get k word = Some ch.
Proof.
  intros H. unfold write_word in H. revert cell ch.
  eapply (foldM_invariant _
           (λ s, ∀ cell ch, letter_at s cell = Some (Some ch) →
                   letter_at letters cell = Some (Some ch) ∨
                   ∃ k, cell_of variable k = cell ∧ String.get k word = Some ch));
    [|by left|exact H].
  intros s k s' _ Hs (ch' & Hch' & Hat)%write_step_at cell ch.
  rewrite Hat. destruct (decide (cell = cell_of variable k)) as [->|_].
  - intros [= <-]. right. by exists k.
  - apply Hs.
Qed.

Lemma write_word_keeps variable word letters letters' cell :
  write_word variable word letters = Ok letters' →
  (∃ ch, letter_at letters cell = Some (Some ch)) →
  ∃ ch, letter_at letters' cell = Some (Some ch).
Proof.
  intros H Hcell. unfold write_word in H.
  eapply (foldM_invariant _ (λ s, ∃ ch, letter_at s cell = Some (Some ch)));
    [|exact Hcell|exact H].
  intros s k s' _ Hs (ch' & Hch' & Hat)%write_step_at.
  rewrite Hat. destruct (decide (cell = cell_of variable k)); [eauto | done].
Qed.

Lemma write_word_covers variable word letters letters' k :
  write_word variable word letters = Ok letters' →
  k < String.length word →
  ∃ ch, letter_at letters' (cell_of variable k) = Some (Some ch).
Proof.
  intros H Hk. unfold write_word in H.
  eapply (foldM_establishes _
           (λ k s, ∃ ch, letter_at s (cell_of variable k) = Some (Some ch)));
    [| |exact H|apply elem_of_seq; lia].
  - intros s k' s' (ch' & _ & Hat)%write_step_at.
    rewrite Hat, decide_True by done. eauto.
  - intros s k' s' k'' (ch' & _ & Hat)%write_step_at Hs.
    rewrite Hat. destruct (decide (_ = _)); [eauto | done].
Qed.

(** X20.  [letter_grid] returns a grid of [height] rows of [width] cells
    whenever every letter of every assigned word falls inside the grid. *)
Theorem letter_grid_in_bounds height width a :
  (∀ v w k, a !! v = Some w → k < String.length w →
            (cell_of v k).1 < height ∧ (cell_of v k).2 < width) →
  ∃ letters, letter_grid height width a = Ok letters ∧
             has_size height width letters.
Proof.
  intros Hin. rewrite letter_grid_unfold.
  apply (foldM_returns _ (has_size height width));
    [|apply has_size_replicate].
  intros s [v w] Hvw%elem_of_map_to_list Hs.
  apply write_word_in_bounds; [done|]. intros k. by apply Hin.
Qed.

(** X21.  [letter_grid] raises [IndexError] whenever some letter of an
    assigned word falls outside the grid. *)
Theorem letter_grid_out_of_bounds height width a v w k :
  a !! v = Some w → k < String.length w →
  ¬ ((cell_of v k).1 < height ∧ (cell_of v k).2 < width) →
  letter_grid height width a = Raise IndexError.
Proof.
  intros Hvw Hk Hout. rewrite letter_grid_unfold.
  apply (foldM_raises _ (has_size height width));
    [| |apply has_size_replicate].
  - intros s [v' w']. apply write_word_cases.
  - exists (v, w). split; [by apply elem_of_map_to_list|].
    intros s Hs. by eapply write_word_raises.
Qed.

Lemma letter_grid_source height width a letters cell ch :
  letter_grid height width a = Ok letters →
  letter_at letters cell = Some (Some ch) →
  ∃ v w k, a !! v = Some w ∧ cell_of v k = cell ∧ String.get k w = Some ch.
Proof.
  rewrite letter_grid_unfold. intros H. revert cell ch.
  eapply (foldM_invariant _
           (λ s, ∀ cell ch, letter_at s cell = Some (Some ch) →
                   ∃ v w k, a !! v = Some w ∧ cell_of v k = cell ∧
                            String.get k w = Some ch)); [| |exact H].
  - intros s [v w] s' Hvw%elem_of_map_to_list Hs Hw cell ch Hat.
    destruct (write_word_source _ _ _ _ _ _ Hw Hat) as [?|(k & ? & ?)];
      [by apply Hs | by exists v, w, k].
  - intros cell ch Hat. by apply letter_at_replicate in Hat.
Qed.

Lemma letter_grid_covers height width a letters v w k :
  letter_grid height width a = Ok letters →
  a !! v = Some w → k < String.length w →
  ∃ ch, letter_at letters (cell_of v k) = Some (Some ch).
Proof.
  rewrite letter_grid_unfold. intros H Hvw Hk.
  assert (∀ p, p ∈ map_to_list a →
            ∀ k, k < String.length p.2 →
              ∃ ch, letter_at letters (cell_of p.1 k) = Some (Some ch)) as Hall.
  { eapply (foldM_establishes _
             (λ p s, ∀ k, k < String.length p.2 →
                       ∃ ch, letter_at s (cell_of p.1 k) = Some (Some ch)));
      [| |exact H].
    - intros s [v' w'] s' Hw k' Hk'. by eapply write_word_covers.
    - intros s [v' w'] s' [v'' w''] Hw Hs k' Hk'.
      eapply write_word_keeps; [done|]. by apply Hs. }
  apply (Hall (v, w)); [by apply elem_of_map_to_list | done].
Qed.

(** X22.  In the grid [letter_grid] returns, every letter is a letter of an
    assigned word at the cell where that word puts it, and every cell of an
    assigned word holds a letter. *)
Theorem letter_grid_contents height width a letters :
  letter_grid height width a = Ok letters →
  (∀ cell ch, letter_at letters cell = Some (Some ch) →
     ∃ v w k, a !! v = Some w ∧ cell_of v k = cell ∧
              String.get k w = Some ch) ∧
  (∀ v w k, a !! v = Some w → k < String.length w →
     ∃ ch, letter_at letters (cell_of v k) = Some (Some ch)).
Proof.
  intros H. split.
  - intros cell ch. by apply (letter_grid_source height width).
  - intros v w k. by apply (letter_grid_covers height width).
Qed.

(** X23.  When the assigned words agree wherever two of them share a cell,
    the grid [letter_grid] returns reads back every word: letter [k] of the
    word of a slot is at the slot's cell [k]. *)
Theorem letter_grid_reads_back height width a letters :
  letter_grid height width a = Ok letters →
  (∀ v w k ch v' w' k' ch',
     a !! v = Some w → a !! v' = Some w' →
     String.get k w = Some ch → String.get k' w' = Some ch' →
     cell_of v k = cell_of v' k' → ch = ch') →
  ∀ v w k ch, a !! v = Some w → String.get k w = Some ch →
    letter_at letters (cell_of v k) = Some (Some ch).
Proof.
  intros H Hagree v w k ch Hvw Hch.
  destruct (letter_grid_covers _ _ _ _ v w k H Hvw) as [ch' Hat];
    [by eapply get_Some_lt|].
  destruct (letter_grid_source _ _ _ _ _ _ H Hat)
    as (v' & w' & k' & Hvw' & Hcell & Hch').
  rewrite Hat. by rewrite (Hagree v w k ch v' w' k' ch').
Qed.

(** ** The further properties at work on the corner grid *)

Lemma grid_of_coherent slots vocabulary table :
  (∀ x y overlap, table_lookup table x y = Some overlap →
                  table_lookup table y x = Some (snd overlap, fst overlap)) →
  coherent (grid_of slots vocabulary table).
Proof.
  intros Hsym. split; [exact Hsym|].
  intros x z. simpl. rewrite list_elem_of_filter. tauto.
Qed.

Lemma corner_table_lookup x y overlap :
  table_lookup Corner.table x y = Some overlap →
  (x = Corner.across ∧ y = Corner.down ∧ overlap = (0, 1)) ∨
  (x = Corner.down ∧ y = Corner.across ∧ overlap = (1, 0)).
Proof.
  unfold table_lookup, Corner.table. simpl.
  repeat case_decide; simpl; intros [= <-]; simplify_eq; auto.
Qed.

Lemma corner_coherent vocabulary : coherent (Corner.grid vocabulary).
Proof.
  apply grid_of_coherent. intros x y overlap H.
  apply corner_table_lookup in H as [(-> & -> & ->)|(-> & -> & ->)];
    reflexivity.
Qed.

Lemma corner_offsets vocabulary : offsets_in_slots (Corner.grid vocabulary).
Proof.
  intros x y overlap H. simpl in H.
  apply corner_table_lookup in H as [(-> & -> & ->)|(-> & -> & ->)];
    simpl; lia.
Qed.

Lemma corner_store_keys vocabulary v :
  v ∈ dom (enforce_node_consistency (init (Corner.grid vocabulary))) ↔
  v ∈ variables (Corner.grid vocabulary).
Proof.
  rewrite dom_enforce_node_consistency, dom_init. apply elem_of_list_to_set.
Qed.

Lemma corner_init_keys vocabulary v :
  v ∈ dom (init (Corner.grid vocabulary)) →
  v ∈ variables (Corner.grid vocabulary).
Proof. rewrite dom_init. apply elem_of_list_to_set. Qed.

Lemma corner_found_in_slots v :
  v ∈ dom Corner.found → v ∈ variables (Corner.grid ["BC"; "CB"]).
Proof.
  assert (dom Corner.found
          = list_to_set (variables (Corner.grid ["BC"; "CB"]))) as ->.
  { apply (bool_decide_unpack _). vm_compute. exact I. }
  apply elem_of_list_to_set.
Qed.

Lemma corner_slots_distinct : Corner.across ≠ Corner.down.
Proof. discriminate. Qed.

Lemma corner_found_fits : fits_board Corner.found.
Proof. apply forallb_map_to_list. vm_compute. reflexivity. Qed.

Lemma corner_filling_entries v w :
  Corner.filling !! v = Some w →
  (v = Corner.across ∧ w = "BC") ∨ (v = Corner.down ∧ w = "CB").
Proof.
  unfold Corner.filling. intros [[<- <-]|[_ H]]%lookup_insert_Some; [by left|].
  apply lookup_singleton_Some in H as [<- <-]. by right.
Qed.

Lemma get_two_letters a b k ch :
  String.get k (String a (String b EmptyString)) = Some ch →
  (k = 0 ∧ ch = a) ∨ (k = 1 ∧ ch = b).
Proof.
  destruct k as [|[|k]]; simpl; [intros [= <-]; by left
                                | intros [= <-]; by right
                                | discriminate].
Qed.

Lemma revise_idempotent_witness :
  Corner.across ≠ Corner.down ∧
  revise Demo.fitting Corner.across Corner.down (init Demo.fitting)
    = Ok (true, Corner.pruned) ∧
  revise Demo.fitting Corner.across Corner.down Corner.pruned
    = Ok (false, Corner.pruned).
Proof.
  split; [done|]. split; [vm_compute; reflexivity|].
  apply (revise_idempotent Demo.fitting Corner.across Corner.down
           (init Demo.fitting) true); [done | vm_compute; reflexivity].
Defined.

Lemma revise_returns_when_node_consistent_witness :
  Corner.across ∈ variables Demo.fitting ∧
  Corner.down ∈ variables Demo.fitting ∧
  is_Some (enforce_node_consistency (init Demo.fitting) !! Corner.across) ∧
  is_Some (enforce_node_consistency (init Demo.fitting) !! Corner.down) ∧
  ∃ r d', revise Demo.fitting Corner.across Corner.down
            (enforce_node_consistency (init Demo.fitting)) = Ok (r, d').
Proof.
  assert (Hx : Corner.across ∈ variables Demo.fitting) by left.
  assert (Hy : Corner.down ∈ variables Demo.fitting) by (right; left).
  assert (H1 : is_Some (enforce_node_consistency (init Demo.fitting)
                          !! Corner.across))
    by (exists ["AB"; "BC"]; vm_compute; reflexivity).
  assert (H2 : is_Some (enforce_node_consistency (init Demo.fitting)
                          !! Corner.down))
    by (exists ["AB"; "BC"]; vm_compute; reflexivity).
  split_and!; [done | done | done | done |].
  apply (revise_returns_when_node_consistent Demo.fitting);
    [done | done | apply corner_slots_distinct | apply corner_offsets
    | apply node_consistent_enforce | done | done].
Defined.

Lemma ac3_false_leaves_empty_domain_witness :
  ac3 Demo.clashing 3 None (init Demo.clashing) = Ok (false, Demo.emptied) ∧
  ∃ x, Demo.emptied !! x = Some [].
Proof.
  split; [vm_compute; reflexivity|].
  apply (ac3_false_leaves_empty_domain Demo.clashing 3 None (init Demo.clashing)).
  vm_compute. reflexivity.
Defined.

Lemma ac3_never_raises_witness :
  coherent Demo.fitting ∧ offsets_in_slots Demo.fitting ∧
  ac3 Demo.fitting 3 (Some [(Corner.across, Corner.down)])
      (enforce_node_consistency (init Demo.fitting))
    ≠ Raise KeyError.
Proof.
  split_and!; [apply corner_coherent | apply corner_offsets |].
  apply ac3_never_raises;
    [apply corner_coherent | apply corner_offsets | apply node_consistent_enforce
    | apply corner_store_keys |].
  intros l a b [= <-] [[= -> ->]|Hin%elem_of_nil]%elem_of_cons; [|done].
  split_and!; [apply corner_slots_distinct | left | right; left].
Defined.

Lemma ac3_true_arc_consistent_witness :
  ac3 Demo.fitting 3 None (init Demo.fitting) = Ok (true, Corner.arc_consistent) ∧
  arc_consistent Demo.fitting Corner.arc_consistent Corner.across Corner.down.
Proof.
  split; [vm_compute; reflexivity|].
  apply (ac3_true_arc_consistent Demo.fitting 3 (init Demo.fitting));
    [apply corner_coherent | | vm_compute; reflexivity | | | done].
  - intros v. rewrite dom_init. apply elem_of_list_to_set.
  - apply (bool_decide_unpack _). vm_compute. exact I.
  - apply (bool_decide_unpack _). vm_compute. exact I.
Defined.

Lemma ac3_empty_arcs_as_none_witness :
  ac3 Demo.fitting 3 (Some []) (init Demo.fitting)
    = Ok (true, Corner.arc_consistent) ∧
  ac3_loop Demo.fitting 3 [] (init Demo.fitting)
    = Ok (true, init Demo.fitting) ∧
  Corner.arc_consistent !!! Corner.across = ["BC"] ∧
  init Demo.fitting !!! Corner.across = ["AB"; "BC"] ∧
  arc_consistent Demo.fitting Corner.arc_consistent Corner.across Corner.down.
Proof.
  destruct (ac3_empty_arcs_as_none Demo.fitting 3 (init Demo.fitting))
    as (_ & _ & _ & Harc).
  assert (H : ac3 Demo.fitting 3 (Some []) (init Demo.fitting)
              = Ok (true, Corner.arc_consistent)) by (vm_compute; reflexivity).
  split_and!; [done | vm_compute; reflexivity | vm_compute; reflexivity
              | vm_compute; reflexivity |].
  apply (Harc Corner.arc_consistent);
    [apply corner_coherent | apply corner_init_keys | done | | | done].
  - apply (bool_decide_unpack _). vm_compute. exact I.
  - apply (bool_decide_unpack _). vm_compute. exact I.
Defined.

Lemma consistent_accepts_exactly_witness :
  (consistent (Corner.grid ["BC"; "CB"]) Corner.found = Ok true ↔
   is_consistent (Corner.grid ["BC"; "CB"]) Corner.found) ∧
  consistent (Corner.grid ["BC"; "CB"]) Corner.found = Ok true.
Proof.
  split; [|vm_compute; reflexivity].
  apply consistent_accepts_exactly, corner_found_in_slots.
Defined.

Lemma consistent_returns_witness :
  fits_board Corner.found ∧
  ∃ b, consistent (Corner.grid ["BC"; "CB"]) Corner.found = Ok b ∧
       (b = true ↔ is_consistent (Corner.grid ["BC"; "CB"]) Corner.found).
Proof.
  split; [apply corner_found_fits|].
  apply consistent_returns;
    [apply corner_coherent | apply corner_offsets | apply corner_found_in_slots
    | apply corner_found_fits].
Defined.

Lemma select_unassigned_variable_fails_witness :
  select_unassigned_variable (Corner.grid ["BC"; "CB"])
    (init (Corner.grid ["BC"; "CB"])) Corner.found = Raise ValueError ∧
  (∀ v, v ∈ dom (init (Corner.grid ["BC"; "CB"])) → is_Some (Corner.found !! v)) ∧
  (∀ e, select_unassigned_variable (Corner.grid ["BC"; "CB"])
          (init (Corner.grid ["BC"; "CB"])) Corner.found = Raise e →
        e = ValueError).
Proof.
  destruct (select_unassigned_variable_fails (Corner.grid ["BC"; "CB"])
              (init (Corner.grid ["BC"; "CB"])) Corner.found
              (corner_init_keys ["BC"; "CB"])) as [[Hall _] Honly].
  assert (H : select_unassigned_variable (Corner.grid ["BC"; "CB"])
                (init (Corner.grid ["BC"; "CB"])) Corner.found
              = Raise ValueError) by (vm_compute; reflexivity).
  split_and!; [done | by apply Hall | done].
Defined.

Lemma select_unassigned_variable_minimal_witness :
  select_unassigned_variable Demo.fitting Corner.arc_consistent ∅
    = Ok Corner.down ∧
  Corner.down ∈ dom Corner.arc_consistent ∧
  (∅ : Assignment) !! Corner.down = None ∧
  ∀ u, u ∈ dom Corner.arc_consistent → (∅ : Assignment) !! u = None →
    (length (Corner.arc_consistent !!! Corner.down)
     ≤ length (Corner.arc_consistent !!! u))%nat ∧
    (length (Corner.arc_consistent !!! Corner.down)
     = length (Corner.arc_consistent !!! u) →
     (length (neighbors Demo.fitting u)
      ≤ length (neighbors Demo.fitting Corner.down))%nat).
Proof.
  split; [vm_compute; reflexivity|].
  apply (select_unassigned_variable_minimal Demo.fitting).
  vm_compute. reflexivity.
Defined.

Lemma order_domain_values_sorted_witness :
  order_domain_values Demo.three_words (init Demo.three_words) Corner.down ∅
    = Ok Demo.down_order ∧
  Demo.down_order ≡ₚ init Demo.three_words !!! Corner.down ∧
  ∃ ns, mapM (rule_out Demo.three_words (init Demo.three_words) Corner.down ∅)
             Demo.down_order = Ok ns ∧
        StronglySorted le ns.
Proof.
  split; [vm_compute; reflexivity|].
  apply (order_domain_values_sorted Demo.three_words). vm_compute. reflexivity.
Defined.

Lemma backtrack_keeps_entries_witness :
  backtrack (Corner.grid ["AA"]) (init (Corner.grid ["AA"])) 3
            {[ Corner.down := "AA" ]}
    = Ok (None, {[ Corner.down := "AA"; Corner.across := "AA" ]}) ∧
  (∀ v w, ({[ Corner.down := "AA" ]} : Assignment) !! v = Some w →
          ({[ Corner.down := "AA"; Corner.across := "AA" ]} : Assignment) !! v
          = Some w) ∧
  (∀ v w, ({[ Corner.down := "AA"; Corner.across := "AA" ]} : Assignment) !! v
          = Some w →
          ({[ Corner.down := "AA" ]} : Assignment) !! v = Some w ∨
          w ∈ init (Corner.grid ["AA"]) !!! v) ∧
  (∀ r, None = Some r →
        r = ({[ Corner.down := "AA"; Corner.across := "AA" ]} : Assignment)).
Proof.
  split; [vm_compute; reflexivity|].
  apply (backtrack_keeps_entries (Corner.grid ["AA"]) (init (Corner.grid ["AA"])) 3).
  vm_compute. reflexivity.
Defined.

Lemma backtrack_depth_bounded_witness :
  unassigned (init Demo.fitting) ∅ < 3 ∧
  backtrack Demo.fitting (init Demo.fitting) 3 ∅ ≠ OutOfFuel.
Proof.
  assert (H : unassigned (init Demo.fitting) ∅ < 3) by (vm_compute; lia).
  split; [done|]. by apply backtrack_depth_bounded.
Defined.

Lemma backtrack_returns_witness :
  unassigned (enforce_node_consistency (init Demo.fitting)) ∅ < 3 ∧
  ∃ res s, backtrack Demo.fitting (enforce_node_consistency (init Demo.fitting))
             3 ∅ = Ok (res, s).
Proof.
  assert (H : unassigned (enforce_node_consistency (init Demo.fitting)) ∅ < 3)
    by (vm_compute; lia).
  split; [done|].
  apply backtrack_returns;
    [apply corner_coherent | apply corner_offsets | apply node_consistent_enforce
    | | apply fits_board_empty | | done].
  - rewrite dom_enforce_node_consistency. apply dom_init.
  - rewrite dom_empty_L. apply empty_subseteq.
Defined.

Lemma solve_never_raises_witness :
  coherent Demo.fitting ∧ offsets_in_slots Demo.fitting ∧
  solve Demo.fitting 3 (init Demo.fitting) ≠ Raise IndexError.
Proof.
  split_and!; [apply corner_coherent | apply corner_offsets |].
  apply solve_never_raises; [apply corner_coherent | apply corner_offsets].
Defined.

Lemma solve_returns_after_ac3_witness :
  ac3 Demo.fitting 3 None (enforce_node_consistency (init Demo.fitting))
    = Ok (true, Corner.arc_consistent) ∧
  size (dom (init Demo.fitting)) < 3 ∧
  ∃ res, solve Demo.fitting 3 (init Demo.fitting) = Ok res.
Proof.
  assert (H : size (dom (init Demo.fitting)) < 3) by (vm_compute; lia).
  split; [vm_compute; reflexivity|]. split; [done|].
  apply (solve_returns_after_ac3 Demo.fitting 3 true Corner.arc_consistent);
    [apply corner_coherent | apply corner_offsets | vm_compute; reflexivity
    | done].
Defined.

Lemma solve_no_slots_witness :
  variables Demo.no_slots = [] ∧
  solve Demo.no_slots 1 (init Demo.no_slots) = Ok (Some ∅).
Proof. split; [reflexivity|]. by apply solve_no_slots. Defined.

Lemma corner_filling_in_bounds v w k :
  Corner.filling !! v = Some w → k < String.length w →
  (cell_of v k).1 < 2 ∧ (cell_of v k).2 < 2.
Proof.
  intros [[-> ->]|[-> ->]]%corner_filling_entries Hk; simpl in Hk;
    destruct k as [|[|k]]; simpl; lia.
Qed.

Lemma letter_grid_in_bounds_witness :
  (∀ v w k, Corner.filling !! v = Some w → k < String.length w →
            (cell_of v k).1 < 2 ∧ (cell_of v k).2 < 2) ∧
  ∃ letters, letter_grid 2 2 Corner.filling = Ok letters ∧
             has_size 2 2 letters.
Proof.
  split; [apply corner_filling_in_bounds|].
  apply letter_grid_in_bounds, corner_filling_in_bounds.
Defined.

Lemma letter_grid_out_of_bounds_witness :
  Corner.filling !! Corner.across = Some "BC" ∧
  letter_grid 2 1 Corner.filling = Raise IndexError.
Proof.
  split; [vm_compute; reflexivity|].
  apply (letter_grid_out_of_bounds 2 1 Corner.filling Corner.across "BC" 1);
    [vm_compute; reflexivity | simpl; lia | simpl; lia].
Defined.

Lemma letter_grid_contents_witness :
  letter_grid 2 2 Corner.filling = Ok Demo.drawn ∧
  (∀ cell ch, letter_at Demo.drawn cell = Some (Some ch) →
     ∃ v w k, Corner.filling !! v = Some w ∧ cell_of v k = cell ∧
              String.get k w = Some ch) ∧
  (∀ v w k, Corner.filling !! v = Some w → k < String.length w →
     ∃ ch, letter_at Demo.drawn (cell_of v k) = Some (Some ch)).
Proof.
  split; [vm_compute; reflexivity|].
  apply (letter_grid_contents 2 2). vm_compute. reflexivity.
Defined.

Lemma corner_filling_agrees v w k ch v' w' k' ch' :
  Corner.filling !! v = Some w → Corner.filling !! v' = Some w' →
  String.get k w = Some ch → String.get k' w' = Some ch' →
  cell_of v k = cell_of v' k' → ch = ch'.
Proof.
  intros [[-> ->]|[-> ->]]%corner_filling_entries
         [[-> ->]|[-> ->]]%corner_filling_entries
         [[-> ->]|[-> ->]]%get_two_letters
         [[-> ->]|[-> ->]]%get_two_letters; by vm_compute.
Qed.

Lemma letter_grid_reads_back_witness :
  letter_grid 2 2 Corner.filling = Ok Demo.drawn ∧
  ∀ v w k ch, Corner.filling !! v = Some w → String.get k w = Some ch →
    letter_at Demo.drawn (cell_of v k) = Some (Some ch).
Proof.
  split; [vm_compute; reflexivity|].
  apply (letter_grid_reads_back 2 2 Corner.filling);
    [vm_compute; reflexivity | apply corner_filling_agrees].
Defined.
(** ** Further properties: what the calls leave alone *)

(** X24.  [revise(x, y)] changes no domain but that of [x]. *)
Theorem revise_changes_only_x c x y d r d' v :
  revise c x y d = Ok (r, d') → v ≠ x → d' !! v = d !! v.
Proof. apply revise_other. Qed.

(** X25.  Started on a consistent assignment, [backtrack] returns only
    assignments that are complete for the store, consistent, and that keep
    every entry of the assignment it was given. *)
Theorem backtrack_extends_consistent c d fuel a r s :
  is_consistent c a →
  backtrack c d fuel a = Ok (Some r, s) →
  dom r = dom d ∧ is_consistent c r ∧ a ⊆ r.
Proof.
  intros Ha H. destruct (backtrack_sound _ _ _ _ _ _ Ha H) as [Hdom Hcons].
  apply backtrack_frame in H as (Hsub & _ & Hres).
  split_and!; [done | done |]. by rewrite (Hres r eq_refl).
Qed.

Lemma ac3_subseteq c fuel arcs d r d' v :
  ac3 c fuel arcs d = Ok (r, d') → d' !!! v ⊆ d !!! v.
Proof.
  intros H. revert v.
  apply (ac3_preserves (λ d1, ∀ v, d1 !!! v ⊆ d !!! v) c)
    with fuel arcs d r; [|done|done].
  intros x y d1 r1 d2 Hd1 Hr v. etrans; [by eapply revise_subseteq | apply Hd1].
Qed.

(** X26.  Every word of an assignment [solve] returns is a word of the
    vocabulary that has the length of its slot. *)
Theorem solve_uses_vocabulary c fuel a v w :
  solve c fuel (init c) = Ok (Some a) →
  a !! v = Some w →
  w ∈ words c ∧ String.length w = Var.length v.
Proof.
  unfold solve. intros H Hvw. inv_bind H. destruct a0 as [r d2].
  inv_bind H. destruct a0 as [result s]. injection H as ->.
  apply backtrack_frame in E0 as (_ & Hdrawn & Hres).
  rewrite (Hres a eq_refl) in Hvw.
  destruct (Hdrawn v w Hvw) as [Hempty|Hw]; [by rewrite lookup_empty in Hempty|].
  apply (ac3_subseteq _ _ _ _ _ _ v E) in Hw.
  rewrite lookup_total_alt, lookup_enforce_node_consistency, lookup_init in Hw.
  destruct (decide (v ∈ variables c)); simpl in Hw;
    [|by apply elem_of_nil in Hw].
  by apply list_elem_of_filter in Hw as [? ?].
Qed.

Lemma revise_changes_only_x_witness :
  revise Demo.fitting Corner.across Corner.down (init Demo.fitting)
    = Ok (true, Corner.pruned) ∧
  Corner.down ≠ Corner.across ∧
  Corner.pruned !! Corner.down = init Demo.fitting !! Corner.down.
Proof.
  split; [vm_compute; reflexivity|]. split; [done|].
  apply (revise_changes_only_x Demo.fitting Corner.across Corner.down
           (init Demo.fitting) true); [vm_compute; reflexivity | done].
Defined.

Lemma backtrack_extends_consistent_witness :
  is_consistent (Corner.grid ["BC"; "CB"]) {[ Corner.down := "BC" ]} ∧
  backtrack (Corner.grid ["BC"; "CB"]) (init (Corner.grid ["BC"; "CB"])) 3
            {[ Corner.down := "BC" ]} = Ok (Some Corner.found, Corner.found) ∧
  dom Corner.found = dom (init (Corner.grid ["BC"; "CB"])) ∧
  is_consistent (Corner.grid ["BC"; "CB"]) Corner.found ∧
  ({[ Corner.down := "BC" ]} : Assignment) ⊆ Corner.found.
Proof.
  assert (H : is_consistent (Corner.grid ["BC"; "CB"]) {[ Corner.down := "BC" ]}).
  { apply consistent_true_iff. vm_compute. reflexivity. }
  split; [done|]. split; [vm_compute; reflexivity|].
  apply (backtrack_extends_consistent (Corner.grid ["BC"; "CB"])
           (init (Corner.grid ["BC"; "CB"])) 3 _ _ Corner.found);
    [done | vm_compute; reflexivity].
Defined.

Lemma solve_uses_vocabulary_witness :
  solve (Corner.grid ["BC"; "CB"]) 3 (init (Corner.grid ["BC"; "CB"]))
    = Ok (Some Corner.found) ∧
  Corner.found !! Corner.across = Some "CB" ∧
  "CB" ∈ words (Corner.grid ["BC"; "CB"]) ∧
  String.length "CB" = Var.length Corner.across.
Proof.
  split; [vm_compute; reflexivity|]. split; [vm_compute; reflexivity|].
  apply (solve_uses_vocabulary (Corner.grid ["BC"; "CB"]) 3 Corner.found);
    vm_compute; reflexivity.
Defined.
